(** * AI Wargame: a shallow embedding of [ai_wargame.py]

    The game-state engine (units, coordinates, board, move legality, action
    application, winner detection), the static evaluation function and the
    two depth-bounded searches of [Game.get_best_move_minimax] are embedded
    as Rocq functions, followed by the properties proved about them.

    Conventions of the embedding:
    - Python integers are [Z]; rows and columns are [Z] and are converted to
      list indices only after [is_valid_coord] has accepted them.
    - The board is the list of rows of optional units that the source holds.
    - A Python value that may be [None] is an [option].
    - An exception raised by the interpreter is a [Raise] result.
    - Writing the trace file ([dump_to_output_file]) is not modelled. *)

From stdpp Require Import base list gmap strings.
From Stdlib Require Import ZArith Lia.

#[local] Open Scope Z_scope.

(** ** Enumerations *)

Inductive UnitType := AI | Tech | Virus | Program | Firewall.
Inductive Player := Attacker | Defender.
Inductive Direction := Up | Right | Down | Left.
Inductive ActionType := SelfDestruct | Move | Attack | Repair.
Inductive GameType :=
  AttackerVsDefender | AttackerVsComp | CompVsDefender | CompVsComp.

#[global] Instance UnitType_eq_dec : EqDecision UnitType.
Proof. solve_decision. Defined.
#[global] Instance Player_eq_dec : EqDecision Player.
Proof. solve_decision. Defined.
#[global] Instance Direction_eq_dec : EqDecision Direction.
Proof. solve_decision. Defined.
#[global] Instance ActionType_eq_dec : EqDecision ActionType.
Proof. solve_decision. Defined.

(** [UnitType.value]: the ordinal used to index the two tables. *)
Definition UnitType_value (t : UnitType) : nat :=
  match t with
  | AI => 0 | Tech => 1 | Virus => 2 | Program => 3 | Firewall => 4
  end%nat.

(** [Player.next] *)
Definition Player_next (p : Player) : Player :=
  match p with Attacker => Defender | Defender => Attacker end.

(** Exceptions the modelled code can raise. *)
Inductive PyErr := TypeError | AttributeError | UnboundLocalError.

(** Result of a computation that may raise, or whose model may run out of
    recursion fuel. *)
Inductive res (A : Type) :=
  | Ok (a : A)
  | Raise (e : PyErr)
  | OutOfFuel.
Arguments Ok {A} a.
Arguments Raise {A} e.
Arguments OutOfFuel {A}.

#[global] Instance res_ret : MRet res := λ A a, Ok a.
#[global] Instance res_bind : MBind res := λ A B k m,
  match m with
  | Ok a => k a
  | Raise e => Raise e
  | OutOfFuel => OutOfFuel
  end.

(** [range(a, b)] *)
Definition range (a b : Z) : list Z := seqZ a (b - a).

(** ** Python strings

    A string is a sequence of code points below 256 (Latin-1).  Only what
    the coordinate notation uses is modelled: indexing, [strip],
    [replace(sep, "")], [find], slices, and the case mappings, which are
    written for the ASCII letters; no other code point below 256 is mapped
    by Python onto an ASCII letter or digit, so a look-up of the mapped
    character in the row or column alphabet gives the same answer. *)

(** [s[i]] with Python's negative indices; [None] stands for IndexError. *)
Definition py_index (s : string) (i : Z) : option Ascii.ascii :=
  let n := Z.of_nat (String.length s) in
  if bool_decide (0 <= i < n) then String.get (Z.to_nat i) s
  else if bool_decide (- n <= i < 0) then String.get (Z.to_nat (n + i)) s
  else None.

(** [str.isspace] on one code point. *)
Definition py_isspace (c : Ascii.ascii) : bool :=
  let n := Ascii.nat_of_ascii c in
  (Nat.leb 9 n && Nat.leb n 13) || (Nat.leb 28 n && Nat.leb n 32)
  || Nat.eqb n 133 || Nat.eqb n 160.

Fixpoint py_lstrip (s : string) : string :=
  match s with
  | String c s' => if py_isspace c then py_lstrip s' else s
  | EmptyString => EmptyString
  end.

Definition string_rev (s : string) : string :=
  String.string_of_list_ascii (rev (String.list_ascii_of_string s)).

(** [s.strip()] *)
Definition py_strip (s : string) : string :=
  string_rev (py_lstrip (string_rev (py_lstrip s))).

(** [s.replace(sep, "")] for a one-character [sep]. *)
Fixpoint py_remove (sep : Ascii.ascii) (s : string) : string :=
  match s with
  | String c s' => if Ascii.eqb c sep then py_remove sep s'
                   else String c (py_remove sep s')
  | EmptyString => EmptyString
  end.

Definition ascii_upper (c : Ascii.ascii) : Ascii.ascii :=
  let n := Ascii.nat_of_ascii c in
  if Nat.leb 97 n && Nat.leb n 122 then Ascii.ascii_of_nat (n - 32) else c.

Definition ascii_lower (c : Ascii.ascii) : Ascii.ascii :=
  let n := Ascii.nat_of_ascii c in
  if Nat.leb 65 n && Nat.leb n 90 then Ascii.ascii_of_nat (n + 32) else c.

Fixpoint string_map (f : Ascii.ascii → Ascii.ascii) (s : string) : string :=
  match s with
  | String c s' => String (f c) (string_map f s')
  | EmptyString => EmptyString
  end.

(** [s.upper()] and [s.lower()] *)
Definition py_upper (s : string) : string := string_map ascii_upper s.
Definition py_lower (s : string) : string := string_map ascii_lower s.

(** [s.find(sub)]: the lowest index where [sub] starts, or -1. *)
Fixpoint py_find_from (sub s : string) (i : Z) : Z :=
  if String.prefix sub s then i
  else match s with
       | String _ s' => py_find_from sub s' (i + 1)
       | EmptyString => -1
       end.

Definition py_find (s sub : string) : Z := py_find_from sub s 0.

(** The separators that the two [from_string] parsers drop. *)
Definition separators : list Ascii.ascii := String.list_ascii_of_string " ,.:;-_".

Definition row_letters : string := "ABCDEFGHIJKLMNOPQRSTUVWXYZ".
Definition col_digits : string := "0123456789abcdef".

(** ** Unit *)

Module Unit.

Record t := mk { player : Player; type : UnitType; health : Z }.

#[global] Instance eq_dec : EqDecision t.
Proof. solve_decision. Defined.

Definition damage_table : list (list Z) :=
  [ [3;3;3;3;1]    (* AI *)
  ; [1;1;6;1;1]    (* Tech *)
  ; [9;6;1;6;1]    (* Virus *)
  ; [3;3;3;3;1]    (* Program *)
  ; [1;1;1;1;1] ]. (* Firewall *)

Definition repair_table : list (list Z) :=
  [ [0;1;1;0;0]    (* AI *)
  ; [3;0;0;3;3]    (* Tech *)
  ; [0;0;0;0;0]    (* Virus *)
  ; [0;0;0;0;0]    (* Program *)
  ; [0;0;0;0;0] ]. (* Firewall *)

(** [table[a.value][b.value]]; both tables are 5 x 5, so the index is
    always in range. *)
Definition table_at (tbl : list (list Z)) (a b : UnitType) : Z :=
  (tbl !!! UnitType_value a) !!! UnitType_value b.

Definition is_alive (self : t) : bool := bool_decide (health self > 0).

Definition mod_health (self : t) (health_delta : Z) : t :=
  let h := health self + health_delta in
  let h := if bool_decide (h < 0) then 0
           else if bool_decide (h > 9) then 9 else h in
  mk (player self) (type self) h.

Definition has_full_health (self : t) : bool :=
  bool_decide (health self = 9).

Definition damage_amount (self target : t) : Z :=
  let amount := table_at damage_table (type self) (type target) in
  if bool_decide (health target - amount < 0) then health target
  else amount.

Definition repair_amount (self target : t) : Z :=
  let amount := table_at repair_table (type self) (type target) in
  if bool_decide (health target + amount > 9) then 9 - health target
  else amount.

(** Returns [Some true], [Some false], or [None] when the function falls
    off its end (Python's implicit [None]).  [direction] is what
    [CoordPair.get_direction] returned, which may itself be [None]. *)
Definition is_valid_movement (self : t) (player : Player)
    (direction : option Direction) : option bool :=
  let fixed := bool_decide (type self = AI) || bool_decide (type self = Program)
               || bool_decide (type self = Firewall) in
  match player with
  | Attacker =>
      if fixed then
        if bool_decide (direction = Some Up) || bool_decide (direction = Some Left)
        then Some true else Some false
      else if bool_decide (type self = Virus) then Some true
      else None
  | Defender =>
      if fixed then
        if bool_decide (direction = Some Down) || bool_decide (direction = Some Right)
        then Some true else Some false
      else if bool_decide (type self = Tech) then Some true
      else None
  end.

End Unit.

(** Truthiness of an optional boolean ([None] is falsy). *)
Definition truthy (b : option bool) : bool :=
  match b with Some true => true | _ => false end.

(** ** Coord *)

Module Coord.

Record t := mk { row : Z; col : Z }.

#[global] Instance eq_dec : EqDecision t.
Proof. solve_decision. Defined.

(** Coords of the rectangle centred on [self], row by row. *)
Definition iter_range (self : t) (dist : Z) : list t :=
  r ← range (row self - dist) (row self + 1 + dist);
  c ← range (col self - dist) (col self + 1 + dist);
  [mk r c].

Definition iter_adjacent (self : t) : list t :=
  [ mk (row self - 1) (col self)
  ; mk (row self) (col self - 1)
  ; mk (row self + 1) (col self)
  ; mk (row self) (col self + 1) ].

Definition equals (self target : t) : bool :=
  bool_decide (row self = row target) && bool_decide (col self = col target).

(** [None] stands for the IndexError of a column below -16. *)
Definition col_string (self : t) : option string :=
  if bool_decide (col self < 16) then
    coord_char ← py_index col_digits (col self); Some (String coord_char EmptyString)
  else Some "?"%string.

(** [None] stands for the IndexError of a row below -26. *)
Definition row_string (self : t) : option string :=
  if bool_decide (row self < 26) then
    coord_char ← py_index row_letters (row self); Some (String coord_char EmptyString)
  else Some "?"%string.

Definition to_string (self : t) : option string :=
  r ← row_string self; c ← col_string self; Some (r +:+ c).

(** [None] is the [None] the source returns for a string that does not
    reduce to two characters. *)
Definition from_string (s : string) : option t :=
  let s := py_strip s in
  let s := foldl (λ s sep, py_remove sep s) s separators in
  if bool_decide (String.length s = 2%nat) then
    Some (mk (py_find row_letters (py_upper (String.substring 0 1 s)))
             (py_find col_digits (py_lower (String.substring 1 1 s))))
  else None.

End Coord.

(** ** CoordPair *)

Module CoordPair.

Record t := mk { src : Coord.t; dst : Coord.t }.

#[global] Instance eq_dec : EqDecision t.
Proof. solve_decision. Defined.

Definition iter_rectangle (self : t) : list Coord.t :=
  r ← range (Coord.row (src self)) (Coord.row (dst self) + 1);
  c ← range (Coord.col (src self)) (Coord.col (dst self) + 1);
  [Coord.mk r c].

Definition is_adjacent (self : t) : bool :=
  existsb
    (λ adj_coord,
       bool_decide (Coord.col adj_coord = Coord.col (dst self))
       && bool_decide (Coord.row adj_coord = Coord.row (dst self)))
    (Coord.iter_adjacent (src self)).

Definition are_coords_equal (self : t) : bool :=
  Coord.equals (src self) (dst self).

(** [None] is the implicit result when none of the four tests holds. *)
Definition get_direction (self : t) : option Direction :=
  let srcRow := Coord.row (src self) in
  let srcCol := Coord.col (src self) in
  let dstRow := Coord.row (dst self) in
  let dstCol := Coord.col (dst self) in
  if bool_decide (srcRow < dstRow) && bool_decide (srcCol = dstCol) then Some Down
  else if bool_decide (srcRow > dstRow) && bool_decide (srcCol = dstCol) then Some Up
  else if bool_decide (srcRow = dstRow) && bool_decide (srcCol < dstCol) then Some Right
  else if bool_decide (srcRow = dstRow) && bool_decide (srcCol > dstCol) then Some Left
  else None.

Definition from_dim (dim : Z) : t :=
  mk (Coord.mk 0 0) (Coord.mk (dim - 1) (dim - 1)).

Definition to_string (self : t) : option string :=
  s ← Coord.to_string (src self); d ← Coord.to_string (dst self);
  Some (s +:+ " " +:+ d).

Definition from_string (s : string) : option t :=
  let s := py_strip s in
  let s := foldl (λ s sep, py_remove sep s) s separators in
  if bool_decide (String.length s = 4%nat) then
    Some (mk (Coord.mk (py_find row_letters (py_upper (String.substring 0 1 s)))
                       (py_find col_digits (py_lower (String.substring 1 1 s))))
             (Coord.mk (py_find row_letters (py_upper (String.substring 2 1 s)))
                       (py_find col_digits (py_lower (String.substring 3 1 s)))))
  else None.

End CoordPair.

(** ** Options

    [max_time] is a float compared with wall-clock readings; the searches
    below take the outcome of each such comparison from an oracle, so the
    field itself is not part of the record. *)

Module Options.

Record t := mk {
  dim : Z;
  max_depth : option Z;
  min_depth : option Z;
  game_type : GameType;
  alpha_beta : bool;
  max_turns : option Z;
  randomize_moves : bool;
  broker : option string;
  heuristic : option string
}.

(** The dataclass defaults. *)
Definition default : t :=
  mk 5 (Some 4) (Some 2) AttackerVsDefender true (Some 100) true None None.

End Options.

(** ** Game *)

Module Game.

Record t := mk {
  board : list (list (option Unit.t));
  next_player : Player;
  turns_played : Z;
  options : Options.t;
  _attacker_has_ai : bool;
  _defender_has_ai : bool;
  skip_logs : bool
}.

Definition with_board (g : t) (b : list (list (option Unit.t))) : t :=
  mk b (next_player g) (turns_played g) (options g)
     (_attacker_has_ai g) (_defender_has_ai g) (skip_logs g).

Definition with_attacker_has_ai (g : t) (f : bool) : t :=
  mk (board g) (next_player g) (turns_played g) (options g)
     f (_defender_has_ai g) (skip_logs g).

Definition with_defender_has_ai (g : t) (f : bool) : t :=
  mk (board g) (next_player g) (turns_played g) (options g)
     (_attacker_has_ai g) f (skip_logs g).

Definition is_valid_coord (self : t) (coord : Coord.t) : bool :=
  let dim := Options.dim (options self) in
  if bool_decide (Coord.row coord < 0) || bool_decide (Coord.row coord >= dim)
     || bool_decide (Coord.col coord < 0) || bool_decide (Coord.col coord >= dim)
  then false else true.

(** [self.board[row][col]] for indices that are not negative.  The source
    raises IndexError beyond the end of a list; every board the program
    builds is [dim] x [dim] ([__post_init__]) and [is_valid_coord] guards
    both accesses, so that case is excluded by [board_wf] below and reads
    as an empty cell here. *)
Definition cell (b : list (list (option Unit.t))) (r c : Z) : option Unit.t :=
  match b !! Z.to_nat r with
  | Some line => match line !! Z.to_nat c with
                 | Some u => u
                 | None => None
                 end
  | None => None
  end.

(** [self.board[row][col] = unit] *)
Definition store (b : list (list (option Unit.t))) (r c : Z)
    (unit : option Unit.t) : list (list (option Unit.t)) :=
  alter (λ line, <[Z.to_nat c := unit]> line) (Z.to_nat r) b.

Definition get (self : t) (coord : Coord.t) : option Unit.t :=
  if is_valid_coord self coord
  then cell (board self) (Coord.row coord) (Coord.col coord)
  else None.

Definition set (self : t) (coord : Coord.t) (unit : option Unit.t) : t :=
  if is_valid_coord self coord
  then with_board self
         (store (board self) (Coord.row coord) (Coord.col coord) unit)
  else self.

Definition remove_dead (self : t) (coord : Coord.t) : t :=
  match get self coord with
  | Some unit =>
      if negb (Unit.is_alive unit) then
        let self := set self coord None in
        if bool_decide (Unit.type unit = AI) then
          if bool_decide (Unit.player unit = Attacker)
          then with_attacker_has_ai self false
          else with_defender_has_ai self false
        else self
      else self
  | None => self
  end.

(** The unit object is mutated in place; the board cell that refers to it
    therefore shows the new health, which is what [set] records here. *)
Definition mod_health (self : t) (coord : Coord.t) (health_delta : Z) : t :=
  match get self coord with
  | Some target =>
      remove_dead (set self coord (Some (Unit.mod_health target health_delta)))
                  coord
  | None => self
  end.

Definition perform_self_distruct (self : t) (src : Coord.t) : res t :=
  let self :=
    foldl (λ g dst, if Coord.equals src dst then g else mod_health g dst (-2))
          self (Coord.iter_range src 1) in
  match get self src with
  | Some src_unit => Ok (mod_health self src (- Unit.health src_unit))
  | None => Raise AttributeError
  end.

Definition perform_fight (self : t) (coords : CoordPair.t) : res t :=
  match get self (CoordPair.src coords), get self (CoordPair.dst coords) with
  | Some src_unit, Some dst_unit =>
      let damage_to_dst := Unit.damage_amount src_unit dst_unit in
      let damage_to_src := Unit.damage_amount dst_unit src_unit in
      let self := mod_health self (CoordPair.src coords) (- damage_to_src) in
      Ok (mod_health self (CoordPair.dst coords) (- damage_to_dst))
  | _, _ => Raise AttributeError
  end.

Definition perform_repair (self : t) (coords : CoordPair.t) : res t :=
  match get self (CoordPair.src coords), get self (CoordPair.dst coords) with
  | Some src_unit, Some dst_unit =>
      let repair_to_dst := Unit.repair_amount src_unit dst_unit in
      Ok (mod_health self (CoordPair.dst coords) repair_to_dst)
  | _, _ => Raise AttributeError
  end.

Definition is_repair_zero (src_unit dst_unit : Unit.t) : bool :=
  bool_decide (Unit.repair_amount src_unit dst_unit <= 0).

Definition is_engaged_in_combat (self : t) (src : Coord.t) : bool :=
  let enemy := match next_player self with
               | Attacker => Defender
               | Defender => Attacker
               end in
  existsb
    (λ adj, match get self adj with
            | Some dst_unit => bool_decide (Unit.player dst_unit = enemy)
            | None => false
            end)
    (Coord.iter_adjacent src).

Definition is_movement_direction_valid (self : t) (unit : Unit.t)
    (coords : CoordPair.t) : option bool :=
  let movementDirection := CoordPair.get_direction coords in
  Unit.is_valid_movement unit (next_player self) movementDirection.

(** The last test of the source, [dst_unit.player != self.next_player], is
    the negation of the test just before it, so it always succeeds when it
    is reached; it is the final [else] here. *)
Definition is_valid_move (self : t) (coords : CoordPair.t)
    : bool * option ActionType :=
  if negb (is_valid_coord self (CoordPair.src coords))
     || negb (is_valid_coord self (CoordPair.dst coords))
  then (false, None)
  else
    match get self (CoordPair.src coords) with
    | None => (false, None)
    | Some src_unit =>
        if bool_decide (Unit.player src_unit ≠ next_player self) then (false, None)
        else if CoordPair.are_coords_equal coords then (true, Some SelfDestruct)
        else if negb (CoordPair.is_adjacent coords) then (false, None)
        else
          match get self (CoordPair.dst coords) with
          | None =>
              let engaged := is_engaged_in_combat self (CoordPair.src coords) in
              if engaged && bool_decide (Unit.type src_unit ≠ Tech)
                 && bool_decide (Unit.type src_unit ≠ Virus)
              then (false, None)
              else if negb (truthy (is_movement_direction_valid self src_unit coords))
              then (false, None)
              else (true, Some Move)
          | Some dst_unit =>
              if bool_decide (Unit.player dst_unit = next_player self) then
                if bool_decide (Unit.type src_unit = Tech)
                   || bool_decide (Unit.type src_unit = AI)
                then
                  if negb (is_repair_zero src_unit dst_unit)
                     && negb (Unit.has_full_health dst_unit)
                  then (true, Some Repair)
                  else (false, None)
                else (false, None)
              else (true, Some Attack)
          end
    end.

Definition do_move_action (self : t) (coords : CoordPair.t)
    (action_type : ActionType) : res t :=
  match action_type with
  | SelfDestruct => perform_self_distruct self (CoordPair.src coords)
  | Move =>
      let self := set self (CoordPair.dst coords) (get self (CoordPair.src coords)) in
      Ok (set self (CoordPair.src coords) None)
  | Attack => perform_fight self coords
  | Repair => perform_repair self coords
  end.

(** Returns the updated game with the triple of the source; the message is
    the empty string on success and "invalid move" otherwise. *)
Definition perform_move (self : t) (coords : CoordPair.t)
    : res (t * (bool * option ActionType * string)) :=
  match is_valid_move self coords with
  | (true, Some action_type) =>
      self' ← do_move_action self coords action_type;
      Ok (self', (true, Some action_type, EmptyString))
  | _ => Ok (self, (false, None, "invalid move"%string))
  end.

Definition next_turn (self : t) : t :=
  mk (board self) (Player_next (next_player self)) (turns_played self + 1)
     (options self) (_attacker_has_ai self) (_defender_has_ai self)
     (skip_logs self).

Definition player_units (self : t) (player : Player)
    : list (Coord.t * Unit.t) :=
  coord ← CoordPair.iter_rectangle (CoordPair.from_dim (Options.dim (options self)));
  match get self coord with
  | Some unit => if bool_decide (Unit.player unit = player) then [(coord, unit)] else []
  | None => []
  end.

Definition get_all_units (self : t) : list (Coord.t * Unit.t) :=
  coord ← CoordPair.iter_rectangle (CoordPair.from_dim (Options.dim (options self)));
  match get self coord with
  | Some unit => [(coord, unit)]
  | None => []
  end.

Definition has_winner (self : t) : option Player :=
  if match Options.max_turns (options self) with
     | Some max_turns => bool_decide (turns_played self >= max_turns)
     | None => false
     end
  then Some Defender
  else if _attacker_has_ai self then
    if _defender_has_ai self then None else Some Attacker
  else if _defender_has_ai self then Some Defender
  else Some Defender.

Definition is_finished (self : t) : bool :=
  bool_decide (has_winner self ≠ None).

Definition move_candidates (self : t) : list (CoordPair.t * ActionType) :=
  '(src, _) ← player_units self (next_player self);
  (dst ← Coord.iter_adjacent src;
   match is_valid_move self (CoordPair.mk src dst) with
   | (true, Some action_type) => [(CoordPair.mk src dst, action_type)]
   | _ => []
   end)
  ++ [(CoordPair.mk src src, SelfDestruct)].

Definition clone (self : t) : t :=
  mk (board self) (next_player self) (turns_played self) (options self)
     (_attacker_has_ai self) (_defender_has_ai self) true.

(** The source is a generator: each child is built when the consumer asks
    for it, so an exception from [do_move_action] surfaces at that child and
    not before; hence a result per child. *)
Definition get_child_states (self : t) : list (CoordPair.t * res t) :=
  (λ '(move, action_type), (move, do_move_action (clone self) move action_type))
    <$> move_candidates self.

(** [__post_init__]: the board of a freshly constructed game.  Whatever
    board the constructor was given is replaced by [dim] rows of [dim] empty
    cells, on which the twelve units are placed ([set] ignores the
    placements that fall outside a small board). *)
Definition __post_init__ (o : Options.t) : t :=
  let dim := Options.dim o in
  let self := mk ((λ _, (λ _, None) <$> range 0 dim) <$> range 0 dim)
                 Attacker 0 o true true false in
  let md := dim - 1 in
  let self := set self (Coord.mk 0 0) (Some (Unit.mk Defender AI 9)) in
  let self := set self (Coord.mk 1 0) (Some (Unit.mk Defender Tech 9)) in
  let self := set self (Coord.mk 0 1) (Some (Unit.mk Defender Tech 9)) in
  let self := set self (Coord.mk 2 0) (Some (Unit.mk Defender Firewall 9)) in
  let self := set self (Coord.mk 0 2) (Some (Unit.mk Defender Firewall 9)) in
  let self := set self (Coord.mk 1 1) (Some (Unit.mk Defender Program 9)) in
  let self := set self (Coord.mk md md) (Some (Unit.mk Attacker AI 9)) in
  let self := set self (Coord.mk (md-1) md) (Some (Unit.mk Attacker Virus 9)) in
  let self := set self (Coord.mk md (md-1)) (Some (Unit.mk Attacker Virus 9)) in
  let self := set self (Coord.mk (md-2) md) (Some (Unit.mk Attacker Program 9)) in
  let self := set self (Coord.mk md (md-2)) (Some (Unit.mk Attacker Program 9)) in
  set self (Coord.mk (md-1) (md-1)) (Some (Unit.mk Attacker Firewall 9)).

(** [None] is Python's [None], returned when no branch matches the
    configured heuristic name. *)
Definition calculate_heuristic (self : t) : option Z :=
  let heuristic := Options.heuristic (options self) in
  if bool_decide (heuristic = Some "e0"%string) then
    Some (foldl
      (λ score '(_, unit),
         let score :=
           if bool_decide (Unit.player unit = Attacker) then
             if bool_decide (Unit.type unit = AI) then score + 9999 else score + 3
           else score in
         if bool_decide (Unit.player unit = Defender) then
           if bool_decide (Unit.type unit = AI) then score - 9999 else score - 3
         else score)
      0 (get_all_units self))
  else if bool_decide (heuristic = Some "e1"%string) then Some 0
  else if bool_decide (heuristic = Some "e2"%string) then
    Some (foldl
      (λ score '(_, unit),
         let score :=
           if bool_decide (Unit.player unit = Attacker) then
             if bool_decide (Unit.type unit = AI) then score + 1000 * Unit.health unit
             else if bool_decide (Unit.type unit = Virus) then score + 30 * Unit.health unit
             else score + 10 * Unit.health unit
           else score in
         if bool_decide (Unit.player unit = Defender) then
           if bool_decide (Unit.type unit = AI) then score - 1000 * Unit.health unit
           else if bool_decide (Unit.type unit = Tech) then score - 30 * Unit.health unit
           else score - 10 * Unit.health unit
         else score)
      0 (get_all_units self))
  else None.

End Game.

(** ** Scores as Python values

    The searches compare and return whatever the evaluation hands them: an
    integer, a float infinity (the initial best value), [None], or the bound
    method object [node.calculate_heuristic] itself. *)

Inductive PyVal :=
  | VInt (z : Z)
  | VNegInf
  | VPosInf
  | VNone
  | VMethod.

#[global] Instance PyVal_eq_dec : EqDecision PyVal.
Proof. solve_decision. Defined.

Definition of_score (s : option Z) : PyVal :=
  match s with Some z => VInt z | None => VNone end.

(** [a < b]; ordering is defined between numbers only. *)
Definition py_lt (a b : PyVal) : res bool :=
  match a, b with
  | VInt x, VInt y => Ok (bool_decide (x < y))
  | VInt _, VPosInf => Ok true
  | VInt _, VNegInf => Ok false
  | VNegInf, VNegInf => Ok false
  | VNegInf, VInt _ => Ok true
  | VNegInf, VPosInf => Ok true
  | VPosInf, VInt _ => Ok false
  | VPosInf, VNegInf => Ok false
  | VPosInf, VPosInf => Ok false
  | _, _ => Raise TypeError
  end.

(** [a > b] *)
Definition py_gt (a b : PyVal) : res bool := py_lt b a.

(** [a <= b] *)
Definition py_le (a b : PyVal) : res bool :=
  gt ← py_lt b a; Ok (negb gt).

(** [max(a, b)] keeps [a] unless [b > a]; [min(a, b)] keeps [a] unless
    [b < a]. *)
Definition py_max (a b : PyVal) : res PyVal :=
  gt ← py_gt b a; Ok (if gt : bool then b else a).

Definition py_min (a b : PyVal) : res PyVal :=
  lt ← py_lt b a; Ok (if lt : bool then b else a).

Definition MAX_HEURISTIC_SCORE : Z := 2000000000.
Definition MIN_HEURISTIC_SCORE : Z := -2000000000.

(** ** The searches of [Game.get_best_move_minimax]

    [alpha_beta_search] and [search] are closures of
    [get_best_move_minimax]: they read [self] (the game the search started
    from), the start time, and the three counters declared [nonlocal].

    Wall-clock time is an oracle: [clock n] is how
    [time() - start_time + buffer_time] compares with [options.max_time] at
    the [n]-th reading of the clock made by this call.  The statistics
    object is shared by every clone, so its histogram is one component of
    the threaded state.  The two averages of the returned tuple are float
    quotients of the counters; the counters are returned in their place. *)

Module Minimax.

Record Locals := mkLocals {
  reads : nat;
  nodes_explored : Z;
  total_depth : Z;
  num_non_leaf_nodes : Z;
  evaluations_per_depth : gmap Z Z
}.

Definition Scored : Type := PyVal * option CoordPair.t.

Section closures.

Variable clock : nat → comparison.
Variable self : Game.t.

Definition read_clock (st : Locals) : comparison * Locals :=
  (clock (reads st),
   mkLocals (S (reads st)) (nodes_explored st) (total_depth st)
            (num_non_leaf_nodes st) (evaluations_per_depth st)).

(** [return (bestValue, bestMove)] where [bestMove] was never assigned
    raises UnboundLocalError. *)
Definition return_best (bestValue : PyVal) (bestMove : option CoordPair.t)
    (st : Locals) : res (Scored * Locals) :=
  match bestMove with
  | Some move => Ok ((bestValue, Some move), st)
  | None => Raise UnboundLocalError
  end.

Section alpha_beta_loops.

Variable recurse : Game.t → PyVal → PyVal → Locals → res (Scored * Locals).

Fixpoint alpha_beta_max (children : list (CoordPair.t * res Game.t))
    (bestValue : PyVal) (bestMove : option CoordPair.t)
    (alphaVal betaVal : PyVal) (st : Locals) : res (Scored * Locals) :=
  match children with
  | [] => return_best bestValue bestMove st
  | (move, child) :: children =>
      child_state ← child;
      let child_state := Game.next_turn child_state in
      '((child_value, _), st) ← recurse child_state alphaVal betaVal st;
      better ← py_lt bestValue child_value;
      let bestMove := if better : bool then Some move else bestMove in
      let bestValue := if better then child_value else bestValue in
      alphaVal ← py_max bestValue alphaVal;
      cut ← py_le betaVal alphaVal;
      if cut : bool then return_best bestValue bestMove st
      else alpha_beta_max children bestValue bestMove alphaVal betaVal st
  end.

Fixpoint alpha_beta_min (children : list (CoordPair.t * res Game.t))
    (bestValue : PyVal) (bestMove : option CoordPair.t)
    (alphaVal betaVal : PyVal) (st : Locals) : res (Scored * Locals) :=
  match children with
  | [] => return_best bestValue bestMove st
  | (move, child) :: children =>
      child_state ← child;
      let child_state := Game.next_turn child_state in
      '((child_value, _), st) ← recurse child_state alphaVal betaVal st;
      better ← py_gt bestValue child_value;
      let bestMove := if better : bool then Some move else bestMove in
      let bestValue := if better then child_value else bestValue in
      betaVal ← py_min bestValue betaVal;
      cut ← py_le betaVal alphaVal;
      if cut : bool then return_best bestValue bestMove st
      else alpha_beta_min children bestValue bestMove alphaVal betaVal st
  end.

End alpha_beta_loops.

(** The leaf returns [node.calculate_heuristic], the method object: the
    source does not call it.  The depth test reads [node.options.max_depth],
    not the [maxDepth] argument. *)
Fixpoint alpha_beta_search (fuel : nat) (max_player : bool)
    (curDepth maxDepth : Z) (node : Game.t) (alphaVal betaVal : PyVal)
    (st : Locals) : res (Scored * Locals) :=
  match fuel with
  | O => OutOfFuel
  | S fuel =>
      let at_depth :=
        bool_decide (Some (curDepth - Game.turns_played self)
                     = Options.max_depth (Game.options node)) in
      let '(late, st) :=
        if at_depth then (false, st)
        else let '(c, st) := read_clock st in (bool_decide (c = Gt), st) in
      if at_depth || late || Game.is_finished node then
        let hScore := VMethod in
        Ok ((hScore, None), st)
      else if max_player then
        alpha_beta_max
          (λ child a b, alpha_beta_search fuel false (curDepth + 1) maxDepth child a b)
          (Game.get_child_states node) VNegInf None alphaVal betaVal st
      else
        alpha_beta_min
          (λ child a b, alpha_beta_search fuel true (curDepth + 1) maxDepth child a b)
          (Game.get_child_states node) VPosInf None alphaVal betaVal st
  end.

(** The bookkeeping done after each child of [search] returns. *)
Definition count_child (currentDepth : Z) (st : Locals) : Locals :=
  mkLocals (reads st)
    (nodes_explored st + 1)
    (total_depth st + (currentDepth - Game.turns_played self + 1))
    (num_non_leaf_nodes st + 1)
    (<[currentDepth + 1 :=
         default 0 (evaluations_per_depth st !! (currentDepth + 1)) + 1]>
       (evaluations_per_depth st)).

Section search_loops.

Variable recurse : Game.t → Locals → res (Scored * Locals).
Variable currentDepth : Z.

Fixpoint search_max (children : list (CoordPair.t * res Game.t))
    (value : PyVal) (best_move : option CoordPair.t) (st : Locals)
    : res (Scored * Locals) :=
  match children with
  | [] => Ok ((value, best_move), st)
  | (mv, child) :: children =>
      child_state ← child;
      let child_state := Game.next_turn child_state in
      '((child_value, _), st) ← recurse child_state st;
      let st := count_child currentDepth st in
      better ← py_gt child_value value;
      if better : bool then search_max children child_value (Some mv) st
      else search_max children value best_move st
  end.

Fixpoint search_min (children : list (CoordPair.t * res Game.t))
    (value : PyVal) (best_move : option CoordPair.t) (st : Locals)
    : res (Scored * Locals) :=
  match children with
  | [] => Ok ((value, best_move), st)
  | (mv, child) :: children =>
      child_state ← child;
      let child_state := Game.next_turn child_state in
      '((child_value, _), st) ← recurse child_state st;
      let st := count_child currentDepth st in
      better ← py_lt child_value value;
      if better : bool then search_min children child_value (Some mv) st
      else search_min children value best_move st
  end.

End search_loops.

Fixpoint search (fuel : nat) (state : Game.t) (currentDepth maxDepth : Z)
    (maximizingPlayer : bool) (st : Locals) : res (Scored * Locals) :=
  match fuel with
  | O => OutOfFuel
  | S fuel =>
      let at_depth :=
        bool_decide (currentDepth - Game.turns_played self = maxDepth) in
      let '(late, st) :=
        if at_depth then (false, st)
        else let '(c, st) := read_clock st in (bool_decide (c = Gt), st) in
      if at_depth || late || Game.is_finished state then
        let score := of_score (Game.calculate_heuristic state) in
        let st := mkLocals (reads st) (nodes_explored st) (total_depth st)
                           (num_non_leaf_nodes st - 1) (evaluations_per_depth st) in
        Ok ((score, None), st)
      else if maximizingPlayer then
        search_max
          (λ child, search fuel child (currentDepth + 1) maxDepth false)
          currentDepth (Game.get_child_states state) VNegInf None st
      else
        search_min
          (λ child, search fuel child (currentDepth + 1) maxDepth true)
          currentDepth (Game.get_child_states state) VPosInf None st
  end.

(** The iterative-deepening loop.  [score] is [None] while the variable is
    still unbound; [max_depth <= self.options.max_depth] raises TypeError
    when the option is [None]. *)
Fixpoint deepen (fuel : nat) (max_depth : Z) (score : option PyVal)
    (best_move : option CoordPair.t) (st : Locals) : res (Scored * Locals) :=
  match fuel with
  | O => OutOfFuel
  | S fuel' =>
      let '(c, st1) := read_clock st in
      if bool_decide (c = Lt) then
        match Options.max_depth (Game.options self) with
        | None => Raise TypeError
        | Some limit =>
            if bool_decide (max_depth <= limit) then
              let st1 := mkLocals (reads st1) 1 0 0 (evaluations_per_depth st1) in
              let maximize := bool_decide (Game.next_player self = Attacker) in
              '((score, best_move), st2) ←
                (if negb (Options.alpha_beta (Game.options self))
                 then search fuel self (Game.turns_played self) max_depth maximize st1
                 else alpha_beta_search fuel maximize (Game.turns_played self)
                        max_depth self (VInt MIN_HEURISTIC_SCORE)
                        (VInt MAX_HEURISTIC_SCORE) st1);
              deepen fuel' (max_depth + 1) (Some score) best_move st2
            else
              match score with
              | Some score => Ok ((score, best_move), st1)
              | None => Raise UnboundLocalError
              end
        end
      else
        match score with
        | Some score => Ok ((score, best_move), st1)
        | None => Raise UnboundLocalError
        end
  end.

Definition get_best_move_minimax (fuel : nat) (stats : gmap Z Z)
    : res (Scored * Locals) :=
  deepen fuel 1 None None (mkLocals 0 0 0 0 stats).

End closures.

End Minimax.

(** * Specification-side definitions

    Predicates and drivers used to state the properties; the functions
    above are the code, the ones below are the vocabulary of the claims. *)

(** The configured turn limit has been reached or exceeded. *)
Definition turn_limit_reached (g : Game.t) : Prop :=
  match Options.max_turns (Game.options g) with
  | Some limit => Game.turns_played g >= limit
  | None => False
  end.

(** [src] and [dst] differ in exactly one axis by exactly one step. *)
Definition one_step_apart (p : CoordPair.t) : Prop :=
  let src := CoordPair.src p in
  let dst := CoordPair.dst p in
  (Coord.row src = Coord.row dst ∧ Z.abs (Coord.col src - Coord.col dst) = 1)
  ∨ (Coord.col src = Coord.col dst ∧ Z.abs (Coord.row src - Coord.row dst) = 1).

(** [src] and [dst] differ in exactly one axis, by any distance. *)
Definition on_one_axis (p : CoordPair.t) : Prop :=
  let src := CoordPair.src p in
  let dst := CoordPair.dst p in
  (Coord.row src = Coord.row dst ∧ Coord.col src ≠ Coord.col dst)
  ∨ (Coord.col src = Coord.col dst ∧ Coord.row src ≠ Coord.row dst).

(** The names for which [calculate_heuristic] has a branch. *)
Definition known_heuristic (h : option string) : Prop :=
  h = Some "e0"%string ∨ h = Some "e1"%string ∨ h = Some "e2"%string.

(** The score component of a search result. *)
Definition returned_score {A} (r : res (Minimax.Scored * A)) : res PyVal :=
  '((score, _), _) ← r; Ok score.

(** A clock under which the time budget is never exhausted. *)
Definition in_time : nat → comparison := λ _, Lt.

(** Every board the program builds has [dim] rows of [dim] cells. *)
Definition board_wf (g : Game.t) : Prop :=
  let dim := Z.to_nat (Options.dim (Game.options g)) in
  length (Game.board g) = dim
  ∧ Forall (λ line, length line = dim) (Game.board g).

(** A cell is healthy when it is empty or its unit is alive with health at
    most 9. *)
Definition healthy (cell : option Unit.t) : Prop :=
  match cell with
  | Some u => 1 <= Unit.health u <= 9
  | None => True
  end.

(** The board invariant: every cell is healthy. *)
Definition units_ok (g : Game.t) : Prop :=
  Forall (Forall healthy) (Game.board g).

(** What a cell holds once its unit [u] is left with health [h]: the unit,
    or nothing when [h] is 0. *)
Definition remaining (u : Unit.t) (h : Z) : option Unit.t :=
  if bool_decide (h > 0) then Some (Unit.mk (Unit.player u) (Unit.type u) h)
  else None.

(** Who occupies a cell: owner and type, health aside. *)
Definition occupant (g : Game.t) (c : Coord.t) : option (Player * UnitType) :=
  (λ u, (Unit.player u, Unit.type u)) <$> Game.get g c.

(** [d] lies in the 3 x 3 square centred on [c]. *)
Definition in_neighbourhood (c d : Coord.t) : Prop :=
  Z.abs (Coord.row d - Coord.row c) <= 1 ∧ Z.abs (Coord.col d - Coord.col c) <= 1.

(** A unit at [src] owned by [owner] is engaged: some cell of its
    4-neighbourhood holds a unit of the other player. *)
Definition engaged (g : Game.t) (src : Coord.t) (owner : Player) : Prop :=
  ∃ c u, one_step_apart (CoordPair.mk src c)
         ∧ Game.get g c = Some u ∧ Unit.player u ≠ owner.

(** The movement rule in the words of the specification. *)
Definition direction_allowed (owner : Player) (ty : UnitType) (d : Direction)
    : Prop :=
  match ty, owner with
  | (AI | Program | Firewall), Attacker => d = Up ∨ d = Left
  | (AI | Program | Firewall), Defender => d = Down ∨ d = Right
  | Virus, Attacker => True
  | Tech, Defender => True
  | Virus, Defender => False
  | Tech, Attacker => False
  end.

(** [perform_fight] with the two health updates applied in the other
    order: destination first, then source. *)
Definition perform_fight_dst_first (self : Game.t) (coords : CoordPair.t)
    : res Game.t :=
  match Game.get self (CoordPair.src coords),
        Game.get self (CoordPair.dst coords) with
  | Some src_unit, Some dst_unit =>
      let damage_to_dst := Unit.damage_amount src_unit dst_unit in
      let damage_to_src := Unit.damage_amount dst_unit src_unit in
      let self := Game.mod_health self (CoordPair.dst coords) (- damage_to_dst) in
      Ok (Game.mod_health self (CoordPair.src coords) (- damage_to_src))
  | _, _ => Raise AttributeError
  end.

(** A sequence of requested moves played the way the turn loop plays them:
    each is validated and applied by [perform_move], and the turn advances
    after the ones that were accepted. *)
Fixpoint play (g : Game.t) (moves : list CoordPair.t) : res Game.t :=
  match moves with
  | [] => Ok g
  | mv :: moves =>
      '(g, (success, _, _)) ← Game.perform_move g mv;
      play (if success : bool then Game.next_turn g else g) moves
  end.

(** A search result whose score is not an integer. *)
Definition no_integer (r : Minimax.Scored * Minimax.Locals) : Prop :=
  ∀ z, r.1.1 ≠ VInt z.

(** The Command unit of player [p] stands at [c]. *)
Definition command_unit_at (g : Game.t) (p : Player) (c : Coord.t) : Prop :=
  ∃ u, Game.get g c = Some u ∧ Unit.type u = AI ∧ Unit.player u = p.

(** The has-AI flag the game keeps for player [p]. *)
Definition has_ai_flag (g : Game.t) (p : Player) : bool :=
  match p with
  | Attacker => Game._attacker_has_ai g
  | Defender => Game._defender_has_ai g
  end.

(** The flags tell the truth about the board: a side's flag is set exactly
    when its Command unit is on the board, and no side has two. *)
Definition flags_consistent (g : Game.t) : Prop :=
  ∀ p, (has_ai_flag g p = true ↔ ∃ c, command_unit_at g p c)
       ∧ (∀ c c', command_unit_at g p c → command_unit_at g p c' → c = c').

(** What an action must leave alone: whose turn it is, the turn counter,
    the options and the logging switch. *)
Definition turn_state (g : Game.t) : Player * Z * Options.t * bool :=
  (Game.next_player g, Game.turns_played g, Game.options g, Game.skip_logs g).

(** The states the plain search is meant for: a well-formed board whose
    has-AI flags agree with it, under the options [o]. *)
Definition searchable (o : Options.t) (g : Game.t) : Prop :=
  board_wf g ∧ flags_consistent g ∧ Game.options g = o.

(** A move that [is_valid_move] accepts in [g]. *)
Definition legal_in (g : Game.t) (mv : CoordPair.t) : Prop :=
  ∃ action, Game.is_valid_move g mv = (true, Some action).

(** The states one ply below [g]: each child that was built, with the turn
    advanced, beside the move that leads to it. *)
Definition successors (g : Game.t) : list (CoordPair.t * Game.t) :=
  omap (λ entry, match entry.2 with
                 | Ok child => Some (entry.1, Game.next_turn child)
                 | _ => None
                 end)
       (Game.get_child_states g).

(** The static value of a state, 0 standing in when the evaluation has no
    result. *)
Definition static_value (g : Game.t) : Z :=
  default 0 (Game.calculate_heuristic g).


(** Textbook minimax of depth [depth], the Attacker maximising: the static
    value at depth 0 and in finished states, otherwise the largest
    (smallest) value among the successors.  A state without successors is
    given its static value; none occurs among searchable states that are
    not finished. *)
Fixpoint minimax (depth : nat) (g : Game.t) (maximizing : bool) : Z :=
  match depth with
  | O => static_value g
  | S depth =>
      if Game.is_finished g then static_value g
      else
        match (λ s, minimax depth s.2 (negb maximizing)) <$> successors g with
        | [] => static_value g
        | v :: values =>
            foldl (if maximizing then Z.max else Z.min) v values
        end
  end.


(** * Properties *)

(** ** Direction of a coordinate pair *)

Lemma get_direction_defined (p : CoordPair.t) :
  is_Some (CoordPair.get_direction p) ↔ on_one_axis p.
Proof.
  unfold CoordPair.get_direction, on_one_axis.
  repeat case_bool_decide; simpl; split;
    first [ by intros [? [=]] | by intros _; eauto | intros; lia ].
Qed.

Lemma is_adjacent_spec (p : CoordPair.t) :
  CoordPair.is_adjacent p = true ↔ one_step_apart p.
Proof.
  unfold CoordPair.is_adjacent, one_step_apart, Coord.iter_adjacent; simpl.
  repeat case_bool_decide; simpl; split; first [ done | intros; lia ].
Qed.

(** The direction matches the sign of the single offset. *)
Lemma get_direction_value (p : CoordPair.t) (d : Direction) :
  CoordPair.get_direction p = Some d ↔
  let src := CoordPair.src p in
  let dst := CoordPair.dst p in
  match d with
  | Down => Coord.row src < Coord.row dst ∧ Coord.col src = Coord.col dst
  | Up => Coord.row src > Coord.row dst ∧ Coord.col src = Coord.col dst
  | Right => Coord.row src = Coord.row dst ∧ Coord.col src < Coord.col dst
  | Left => Coord.row src = Coord.row dst ∧ Coord.col src > Coord.col dst
  end.
Proof.
  unfold CoordPair.get_direction.
  destruct d; repeat case_bool_decide; simpl; split;
    first [ done | intros; lia ].
Qed.

(** C8, as stated, fails: two steps along one axis still have a direction. *)
Lemma get_direction_two_steps :
  let p := CoordPair.mk (Coord.mk 0 0) (Coord.mk 2 0) in
  CoordPair.get_direction p = Some Down ∧ ¬ one_step_apart p.
Proof.
  split; [reflexivity|].
  unfold one_step_apart; simpl. intros [[? _]|[_ ?]]; discriminate.
Qed.

(** C8 (amended): the direction of a coordinate pair is defined if and only
    if source and destination differ in exactly one axis, by any number of
    steps; it is undefined for equal coordinates and whenever both axes
    differ.  The one-step restriction is not part of [get_direction]: it is
    imposed by the adjacency test that [is_valid_move] makes before asking
    for a direction. *)
Theorem get_direction_iff_one_axis (p : CoordPair.t) :
  (is_Some (CoordPair.get_direction p) ↔ on_one_axis p)
  ∧ (one_step_apart p → is_Some (CoordPair.get_direction p))
  ∧ (CoordPair.src p = CoordPair.dst p → CoordPair.get_direction p = None)
  ∧ (Coord.row (CoordPair.src p) ≠ Coord.row (CoordPair.dst p) →
     Coord.col (CoordPair.src p) ≠ Coord.col (CoordPair.dst p) →
     CoordPair.get_direction p = None).
Proof.
  split_and!.
  - apply get_direction_defined.
  - intros H. apply get_direction_defined.
    unfold one_step_apart, on_one_axis in *. lia.
  - intros H. apply eq_None_not_Some. rewrite get_direction_defined.
    unfold on_one_axis. rewrite H. tauto.
  - intros Hr Hc. apply eq_None_not_Some. rewrite get_direction_defined.
    unfold on_one_axis. tauto.
Qed.

Lemma get_direction_iff_one_axis_witness :
  let p := CoordPair.mk (Coord.mk 3 1) (Coord.mk 3 2) in
  one_step_apart p ∧ is_Some (CoordPair.get_direction p).
Proof.
  assert (H : one_step_apart (CoordPair.mk (Coord.mk 3 1) (Coord.mk 3 2))).
  { left; simpl; split; reflexivity. }
  split; [exact H|].
  exact (proj1 (proj2 (get_direction_iff_one_axis _)) H).
Defined.

(** ** Winner detection *)

(** C1, as stated, fails: after the Attacker destroys its own Command unit
    on the first turn, the Attacker's Command unit is gone, the Defender's
    survives, the turn limit is far away, and the winner is the Defender. *)
Lemma has_winner_attacker_ai_lost :
  ∃ g, Game.perform_move (Game.__post_init__ Options.default)
         (CoordPair.mk (Coord.mk 4 4) (Coord.mk 4 4))
       = Ok (g, (true, Some SelfDestruct, EmptyString))
    ∧ ¬ turn_limit_reached g
    ∧ Game._attacker_has_ai g = false
    ∧ Game._defender_has_ai g = true
    ∧ Game.has_winner g = Some Defender
    ∧ Game.has_winner g ≠ Some Attacker.
Proof.
  eexists. split; [vm_compute; reflexivity|].
  split_and!; try reflexivity; try discriminate.
  unfold turn_limit_reached; simpl. lia.
Qed.

(** C1 (amended): while the turn limit has not been reached, the winner is
    the Attacker when the Defender's Command unit is destroyed and the
    Attacker's survives, the Defender when the Attacker's Command unit is
    destroyed and the Defender's survives, the Defender when both are
    destroyed, and nobody when both survive.  "Destroyed" is what the game
    state records in its two has-AI flags, which [remove_dead] clears. *)
Theorem has_winner_by_command_units (g : Game.t) :
  ¬ turn_limit_reached g →
  Game.has_winner g =
    match Game._attacker_has_ai g, Game._defender_has_ai g with
    | true, false => Some Attacker
    | false, true => Some Defender
    | false, false => Some Defender
    | true, true => None
    end.
Proof.
  unfold turn_limit_reached, Game.has_winner. intros Hlimit.
  destruct (Options.max_turns (Game.options g)) as [limit|].
  - rewrite bool_decide_eq_false_2 by done.
    by destruct (Game._attacker_has_ai g), (Game._defender_has_ai g).
  - by destruct (Game._attacker_has_ai g), (Game._defender_has_ai g).
Qed.

Lemma has_winner_by_command_units_witness :
  Game.has_winner (Game.__post_init__ Options.default) = None.
Proof.
  refine (has_winner_by_command_units (Game.__post_init__ Options.default) _).
  unfold turn_limit_reached; simpl. lia.
Defined.

(** C9: once the turns played reach or exceed the configured limit the
    winner is the Defender, whatever the two has-AI flags and the board
    say; the test comes first in [has_winner]. *)
Theorem has_winner_turn_limit (g : Game.t) :
  turn_limit_reached g → Game.has_winner g = Some Defender.
Proof.
  unfold turn_limit_reached, Game.has_winner. intros Hlimit.
  destruct (Options.max_turns (Game.options g)) as [limit|]; [|done].
  by rewrite bool_decide_eq_true_2.
Qed.

(** At the limit the Defender wins even with its own Command unit recorded
    as destroyed and the Attacker's alive. *)
Lemma has_winner_turn_limit_witness :
  Game.has_winner
    (Game.mk (Game.board (Game.__post_init__ Options.default)) Attacker 100
             Options.default true false false)
  = Some Defender.
Proof.
  apply has_winner_turn_limit.
  unfold turn_limit_reached; simpl. lia.
Defined.

(** ** Static evaluation *)

Lemma calculate_heuristic_known (g : Game.t) :
  known_heuristic (Options.heuristic (Game.options g)) →
  ∃ score, Game.calculate_heuristic g = Some score.
Proof.
  unfold known_heuristic, Game.calculate_heuristic.
  intros [H|[H|H]]; rewrite H; simpl; eauto.
Qed.

Lemma calculate_heuristic_unknown (g : Game.t) :
  ¬ known_heuristic (Options.heuristic (Game.options g)) →
  Game.calculate_heuristic g = None.
Proof.
  unfold known_heuristic, Game.calculate_heuristic. intros H.
  repeat case_bool_decide; tauto.
Qed.

(** ** Reading and writing board cells *)

Lemma is_valid_coord_spec (g : Game.t) (c : Coord.t) :
  Game.is_valid_coord g c = true ↔
  0 <= Coord.row c < Options.dim (Game.options g)
  ∧ 0 <= Coord.col c < Options.dim (Game.options g).
Proof.
  unfold Game.is_valid_coord.
  repeat case_bool_decide; simpl; split; first [ done | intros; lia ].
Qed.

Lemma cell_store_ne b (r c r' c' : Z) x :
  0 <= r → 0 <= c → 0 <= r' → 0 <= c' → r ≠ r' ∨ c ≠ c' →
  Game.cell (Game.store b r c x) r' c' = Game.cell b r' c'.
Proof.
  intros Hr Hc Hr' Hc' Hne. unfold Game.cell, Game.store.
  destruct (decide (r = r')) as [->|Hrr].
  - rewrite list_lookup_alter_eq.
    destruct (b !! Z.to_nat r') as [line|]; simpl; [|done].
    rewrite list_lookup_insert_ne; [done|lia].
  - rewrite list_lookup_alter_ne; [done|lia].
Qed.

Lemma cell_store_eq b (r c : Z) x u :
  Game.cell b r c = Some u → Game.cell (Game.store b r c x) r c = x.
Proof.
  unfold Game.cell, Game.store. rewrite list_lookup_alter_eq.
  destruct (b !! Z.to_nat r) as [line|]; simpl; [|done].
  destruct (line !! Z.to_nat c) as [old|] eqn:Hold; [|done].
  intros _. rewrite list_lookup_insert_eq; [done|].
  by eapply lookup_lt_Some.
Qed.

Lemma cell_store_eq_wf b (r c : Z) x line :
  b !! Z.to_nat r = Some line → (Z.to_nat c < length line)%nat →
  Game.cell (Game.store b r c x) r c = x.
Proof.
  intros Hline Hlen. unfold Game.cell, Game.store.
  rewrite list_lookup_alter_eq, Hline; simpl.
  by rewrite list_lookup_insert_eq.
Qed.

Lemma store_store b (r c : Z) x y :
  Game.store (Game.store b r c x) r c y = Game.store b r c y.
Proof.
  unfold Game.store. rewrite list_alter_alter_eq.
  apply list_alter_ext; [|done]. intros line _; simpl.
  apply list_insert_insert_eq.
Qed.

Lemma is_valid_coord_set g c x d :
  Game.is_valid_coord (Game.set g c x) d = Game.is_valid_coord g d.
Proof. unfold Game.set. by destruct (Game.is_valid_coord g c). Qed.

Lemma options_set g c x : Game.options (Game.set g c x) = Game.options g.
Proof. unfold Game.set. by destruct (Game.is_valid_coord g c). Qed.

Lemma get_set_ne g c x d :
  c ≠ d → Game.get (Game.set g c x) d = Game.get g d.
Proof.
  intros Hne. unfold Game.get. rewrite is_valid_coord_set.
  destruct (Game.is_valid_coord g d) eqn:Hd; [|done].
  unfold Game.set. destruct (Game.is_valid_coord g c) eqn:Hc; [|done].
  simpl. apply is_valid_coord_spec in Hd, Hc.
  apply cell_store_ne; try lia.
  destruct c as [r1 c1], d as [r2 c2]; simpl in *.
  destruct (decide (r1 = r2)); [right|left]; congruence.
Qed.

Lemma get_set_eq g c x u :
  Game.get g c = Some u → Game.get (Game.set g c x) c = x.
Proof.
  unfold Game.get. rewrite is_valid_coord_set. unfold Game.set.
  destruct (Game.is_valid_coord g c); [|done]. simpl.
  apply cell_store_eq.
Qed.

Lemma get_set_eq_wf g c x :
  board_wf g → Game.is_valid_coord g c = true →
  Game.get (Game.set g c x) c = x.
Proof.
  intros [Hlen Hrows] Hc. unfold Game.get. rewrite is_valid_coord_set.
  unfold Game.set. rewrite Hc; simpl.
  apply is_valid_coord_spec in Hc.
  destruct (lookup_lt_is_Some_2 (Game.board g) (Z.to_nat (Coord.row c)))
    as [line Hline]; [lia|].
  eapply cell_store_eq_wf; [done|].
  rewrite (Forall_lookup_1 _ _ _ _ Hrows Hline). lia.
Qed.

Lemma board_wf_set g c x : board_wf g → board_wf (Game.set g c x).
Proof.
  intros [Hlen Hrows]. unfold board_wf. rewrite options_set.
  unfold Game.set. destruct (Game.is_valid_coord g c); [|done]. simpl.
  unfold Game.store. split; [by rewrite length_alter|].
  apply Forall_alter; [done|]. intros line _ Hl. by rewrite length_insert.
Qed.

Lemma set_set g c x y : Game.set (Game.set g c x) c y = Game.set g c y.
Proof.
  unfold Game.set at 1. rewrite is_valid_coord_set.
  unfold Game.set. destruct (Game.is_valid_coord g c); [|done].
  unfold Game.with_board; simpl. by rewrite store_store.
Qed.

(** ** Health modification *)

Lemma Unit_mod_health_range (u : Unit.t) (delta : Z) :
  0 <= Unit.health (Unit.mod_health u delta) <= 9.
Proof. unfold Unit.mod_health; simpl. repeat case_bool_decide; lia. Qed.

Lemma remaining_mod_health (u : Unit.t) (delta : Z) :
  remaining u (Unit.health (Unit.mod_health u delta))
  = if Unit.is_alive (Unit.mod_health u delta)
    then Some (Unit.mod_health u delta) else None.
Proof. reflexivity. Qed.

Lemma healthy_remaining (u : Unit.t) (h : Z) : h <= 9 → healthy (remaining u h).
Proof.
  intros Hh. unfold remaining. case_bool_decide; simpl; [lia|done].
Qed.

Lemma mod_health_None g c delta :
  Game.get g c = None → Game.mod_health g c delta = g.
Proof. unfold Game.mod_health. by intros ->. Qed.

(** The board after [mod_health] on an occupied cell: one cell rewritten. *)
Lemma mod_health_board g c delta u :
  Game.get g c = Some u →
  Game.board (Game.mod_health g c delta)
  = Game.board
      (Game.set g c (remaining u (Unit.health (Unit.mod_health u delta)))).
Proof.
  intros Hu. unfold Game.mod_health, Game.remove_dead. rewrite Hu.
  rewrite (get_set_eq _ _ _ _ Hu), remaining_mod_health.
  destruct (Unit.is_alive (Unit.mod_health u delta)); simpl; [done|].
  rewrite set_set. by repeat case_bool_decide.
Qed.

Lemma mod_health_options g c delta :
  Game.options (Game.mod_health g c delta) = Game.options g.
Proof.
  unfold Game.mod_health, Game.remove_dead.
  destruct (Game.get g c) as [u|]; [|done].
  destruct (Game.get _ c) as [v|]; [|by rewrite options_set].
  destruct (negb _); [|by rewrite options_set].
  repeat case_bool_decide; simpl; by rewrite !options_set.
Qed.

Lemma mod_health_next_player g c delta :
  Game.next_player (Game.mod_health g c delta) = Game.next_player g.
Proof.
  assert (Hset : ∀ g c x, Game.next_player (Game.set g c x) = Game.next_player g).
  { intros. unfold Game.set. by destruct (Game.is_valid_coord _ _). }
  unfold Game.mod_health, Game.remove_dead.
  destruct (Game.get g c) as [u|]; [|done].
  destruct (Game.get _ c) as [v|]; [|by rewrite Hset].
  destruct (negb _); [|by rewrite Hset].
  repeat case_bool_decide; simpl; by rewrite !Hset.
Qed.

Lemma get_ext g g' c :
  Game.board g = Game.board g' → Game.options g = Game.options g' →
  Game.get g c = Game.get g' c.
Proof.
  intros Hb Ho. unfold Game.get, Game.is_valid_coord. by rewrite Hb, Ho.
Qed.

Lemma mod_health_get g c delta u d :
  Game.get g c = Some u →
  Game.get (Game.mod_health g c delta) d
  = Game.get (Game.set g c (remaining u (Unit.health (Unit.mod_health u delta)))) d.
Proof.
  intros Hu. apply get_ext.
  - by apply mod_health_board.
  - by rewrite mod_health_options, options_set.
Qed.

Lemma mod_health_get_eq g c delta u :
  Game.get g c = Some u →
  Game.get (Game.mod_health g c delta) c
  = remaining u (Unit.health (Unit.mod_health u delta)).
Proof.
  intros Hu. rewrite (mod_health_get _ _ _ _ _ Hu). by eapply get_set_eq.
Qed.

Lemma mod_health_get_ne g c delta d :
  c ≠ d → Game.get (Game.mod_health g c delta) d = Game.get g d.
Proof.
  intros Hne. destruct (Game.get g c) as [u|] eqn:Hu.
  - rewrite (mod_health_get _ _ _ _ _ Hu). by apply get_set_ne.
  - by rewrite mod_health_None.
Qed.

Lemma board_wf_mod_health g c delta :
  board_wf g → board_wf (Game.mod_health g c delta).
Proof.
  intros Hwf. destruct (Game.get g c) as [u|] eqn:Hu.
  - unfold board_wf. rewrite mod_health_options, (mod_health_board _ _ _ _ Hu).
    rewrite <- (options_set g c (remaining u (Unit.health (Unit.mod_health u delta)))).
    by apply board_wf_set.
  - by rewrite mod_health_None.
Qed.

(** ** The health invariant *)

Lemma units_ok_get g c u :
  units_ok g → Game.get g c = Some u → 1 <= Unit.health u <= 9.
Proof.
  unfold units_ok, Game.get, Game.cell. intros Hok.
  destruct (Game.is_valid_coord g c); [|done].
  destruct (Game.board g !! _) as [line|] eqn:Hline; [|done].
  destruct (line !! _) as [x|] eqn:Hx; [|done]. intros ->.
  exact (Forall_lookup_1 _ _ _ _ (Forall_lookup_1 _ _ _ _ Hok Hline) Hx).
Qed.

Lemma units_ok_set g c x : units_ok g → healthy x → units_ok (Game.set g c x).
Proof.
  unfold units_ok, Game.set. intros Hok Hx.
  destruct (Game.is_valid_coord g c); [|done]. simpl. unfold Game.store.
  apply Forall_alter; [done|]. intros line _ Hline. by apply Forall_insert.
Qed.

Lemma units_ok_mod_health g c delta :
  units_ok g → units_ok (Game.mod_health g c delta).
Proof.
  intros Hok. destruct (Game.get g c) as [u|] eqn:Hu.
  - unfold units_ok. rewrite (mod_health_board _ _ _ _ Hu).
    apply units_ok_set; [done|]. apply healthy_remaining.
    apply Unit_mod_health_range.
  - by rewrite mod_health_None.
Qed.

(** ** What a validated move guarantees *)

Lemma Coord_equals_spec (a b : Coord.t) : Coord.equals a b = true ↔ a = b.
Proof.
  unfold Coord.equals. destruct a, b; simpl.
  repeat case_bool_decide; simpl; split; first [ done | congruence ].
Qed.

Lemma is_adjacent_ne (p : CoordPair.t) :
  CoordPair.is_adjacent p = true → CoordPair.src p ≠ CoordPair.dst p.
Proof.
  rewrite is_adjacent_spec. unfold one_step_apart. intros H Heq.
  rewrite Heq in H. lia.
Qed.

Lemma is_valid_move_inv g coords action :
  Game.is_valid_move g coords = (true, Some action) →
  ∃ src_unit,
    Game.get g (CoordPair.src coords) = Some src_unit
    ∧ Unit.player src_unit = Game.next_player g
    ∧ Game.is_valid_coord g (CoordPair.src coords) = true
    ∧ Game.is_valid_coord g (CoordPair.dst coords) = true
    ∧ match action with
      | SelfDestruct => CoordPair.src coords = CoordPair.dst coords
      | Move =>
          CoordPair.is_adjacent coords = true
          ∧ Game.get g (CoordPair.dst coords) = None
      | Attack =>
          CoordPair.is_adjacent coords = true
          ∧ ∃ dst_unit, Game.get g (CoordPair.dst coords) = Some dst_unit
                        ∧ Unit.player dst_unit ≠ Game.next_player g
      | Repair =>
          CoordPair.is_adjacent coords = true
          ∧ ∃ dst_unit, Game.get g (CoordPair.dst coords) = Some dst_unit
                        ∧ Unit.player dst_unit = Game.next_player g
                        ∧ Unit.repair_amount src_unit dst_unit > 0
                        ∧ Unit.health dst_unit ≠ 9
      end.
Proof.
  unfold Game.is_valid_move.
  destruct (Game.is_valid_coord g (CoordPair.src coords)) eqn:Hs; [|done].
  destruct (Game.is_valid_coord g (CoordPair.dst coords)) eqn:Hd; [|done].
  simpl. destruct (Game.get g (CoordPair.src coords)) as [u|] eqn:Hu; [|done].
  case_bool_decide as Hp; [done|].
  destruct (CoordPair.are_coords_equal coords) eqn:Heq.
  { intros [= <-]. exists u. split_and!; try done.
    by apply Coord_equals_spec. }
  destruct (CoordPair.is_adjacent coords) eqn:Hadj; [|done]. simpl.
  destruct (Game.get g (CoordPair.dst coords)) as [v|] eqn:Hv.
  - case_bool_decide as Hpv.
    + destruct (_ || _); [|done].
      unfold Game.is_repair_zero, Unit.has_full_health.
      repeat case_bool_decide; simpl; try done.
      intros [= <-]. exists u. split_and!; try done.
      exists v. split_and!; try done. lia.
    + intros [= <-]. exists u. split_and!; try done. by exists v.
  - destruct (_ && _); [done|]. destruct (negb _); [done|].
    intros [= <-]. by exists u.
Qed.

(** ** Applying a validated move never raises and keeps the invariant *)

Lemma self_destruct_loop_inv (P : Game.t → Prop) src (l : list Coord.t) g :
  (∀ g d, d ≠ src → P g → P (Game.mod_health g d (-2))) → P g →
  P (foldl (λ g dst, if Coord.equals src dst then g
                     else Game.mod_health g dst (-2)) g l).
Proof.
  intros Hstep. revert g. induction l as [|d l IH]; intros g Hg; simpl; [done|].
  apply IH. destruct (Coord.equals src d) eqn:Heq; [done|].
  apply Hstep; [|done]. intros ->.
  by rewrite (proj2 (Coord_equals_spec src src)) in Heq.
Qed.

Lemma do_move_action_units_ok g coords action :
  units_ok g → Game.is_valid_move g coords = (true, Some action) →
  ∃ g', Game.do_move_action g coords action = Ok g' ∧ units_ok g'.
Proof.
  intros Hok Hvalid.
  destruct (is_valid_move_inv _ _ _ Hvalid) as (u & Hu & _ & _ & _ & Hact).
  destruct action; simpl.
  - unfold Game.perform_self_distruct.
    set (g1 := foldl _ g _).
    assert (H1 : units_ok g1 ∧ Game.get g1 (CoordPair.src coords) = Some u).
    { apply (self_destruct_loop_inv
               (λ g, units_ok g ∧ Game.get g (CoordPair.src coords) = Some u));
        [|done].
      intros g0 d Hd [? ?]. split; [by apply units_ok_mod_health|].
      by rewrite mod_health_get_ne. }
    destruct H1 as [Hok1 ->]. eexists; split; [done|].
    by apply units_ok_mod_health.
  - eexists; split; [done|].
    apply units_ok_set; [|done]. apply units_ok_set; [done|].
    rewrite Hu. simpl. by eapply units_ok_get.
  - destruct Hact as (_ & v & Hv & _). unfold Game.perform_fight.
    rewrite Hu, Hv. eexists; split; [done|].
    by do 2 apply units_ok_mod_health.
  - destruct Hact as (_ & v & Hv & _). unfold Game.perform_repair.
    rewrite Hu, Hv. eexists; split; [done|].
    by apply units_ok_mod_health.
Qed.

Lemma perform_move_units_ok g coords :
  units_ok g →
  ∃ g' outcome, Game.perform_move g coords = Ok (g', outcome) ∧ units_ok g'.
Proof.
  intros Hok. unfold Game.perform_move.
  destruct (Game.is_valid_move g coords) as [[] [action|]] eqn:Hvalid; eauto.
  destruct (do_move_action_units_ok _ _ _ Hok Hvalid) as (g' & -> & Hok').
  simpl. eauto.
Qed.

(** C4: every health modification leaves the modified unit's health within
    0..9 and, in the same call of [Game.mod_health], a unit that dropped to
    0 is taken off the board; so "every unit on the board has health
    1..9" is preserved by each modification and by every sequence of
    requested moves, none of which can raise. *)
Theorem health_invariant (g : Game.t) :
  units_ok g →
  (∀ u delta, 0 <= Unit.health (Unit.mod_health u delta) <= 9)
  ∧ (∀ c delta u,
       Game.get g c = Some u →
       units_ok (Game.mod_health g c delta)
       ∧ (Unit.health (Unit.mod_health u delta) = 0 →
          Game.get (Game.mod_health g c delta) c = None))
  ∧ (∀ moves, ∃ g', play g moves = Ok g' ∧ units_ok g').
Proof.
  intros Hok. split_and!.
  - apply Unit_mod_health_range.
  - intros c delta u Hu. split; [by apply units_ok_mod_health|].
    intros H0. rewrite (mod_health_get_eq _ _ _ _ Hu), H0. done.
  - intros moves. revert g Hok.
    induction moves as [|mv moves IH]; intros g Hok; simpl; [eauto|].
    destruct (perform_move_units_ok g mv Hok) as (g' & [[ok a] msg] & -> & Hok').
    simpl. apply IH. destruct ok; [|done].
    unfold units_ok, Game.next_turn; simpl. exact Hok'.
Qed.

Lemma health_invariant_witness :
  let g := Game.__post_init__ Options.default in
  let moves := [ CoordPair.mk (Coord.mk 2 4) (Coord.mk 1 4)
               ; CoordPair.mk (Coord.mk 0 2) (Coord.mk 0 3)
               ; CoordPair.mk (Coord.mk 1 4) (Coord.mk 0 4)
               ; CoordPair.mk (Coord.mk 0 3) (Coord.mk 0 4)
               ; CoordPair.mk (Coord.mk 4 4) (Coord.mk 4 4) ] in
  units_ok g ∧ ∃ g', play g moves = Ok g' ∧ units_ok g'.
Proof.
  intros g moves.
  assert (Hok : units_ok g).
  { unfold units_ok, g; simpl. repeat constructor; simpl; lia. }
  split; [exact Hok|].
  exact (proj2 (proj2 (health_invariant g Hok)) moves).
Defined.

(** ** Combat *)

Lemma damage_table_positive (a b : UnitType) :
  1 <= Unit.table_at Unit.damage_table a b.
Proof. destruct a, b; vm_compute; discriminate. Qed.

Lemma damage_amount_min (attacker target : Unit.t) :
  Unit.damage_amount attacker target
  = Z.min (Unit.table_at Unit.damage_table (Unit.type attacker) (Unit.type target))
          (Unit.health target).
Proof. unfold Unit.damage_amount. case_bool_decide; lia. Qed.

Lemma mod_health_damage (u : Unit.t) (amount : Z) :
  0 <= amount → Unit.health u <= 9 →
  Unit.health (Unit.mod_health u (- Z.min amount (Unit.health u)))
  = Unit.health u - Z.min amount (Unit.health u).
Proof.
  intros Ha Hu. unfold Unit.mod_health; simpl. repeat case_bool_decide; lia.
Qed.

(** C3: in a legal Attack of the unit A at [src] on the unit B at [dst],
    B loses A's table damage against B and A loses B's table damage against
    A, each capped at the victim's health before the attack; both amounts
    are taken before either unit is touched, so the two healths come out
    the same when the updates are applied in the other order, and the
    damage to B does not depend on whether A survives.  Two Program units
    at health 9 both end at health 6. *)
Theorem perform_fight_simultaneous (g : Game.t) (coords : CoordPair.t)
    (A B : Unit.t) :
  Game.is_valid_move g coords = (true, Some Attack) →
  Game.get g (CoordPair.src coords) = Some A →
  Game.get g (CoordPair.dst coords) = Some B →
  Unit.health A <= 9 → Unit.health B <= 9 →
  let to_B := Z.min (Unit.table_at Unit.damage_table (Unit.type A) (Unit.type B))
                    (Unit.health B) in
  let to_A := Z.min (Unit.table_at Unit.damage_table (Unit.type B) (Unit.type A))
                    (Unit.health A) in
  ∃ g',
    Game.perform_fight g coords = Ok g'
    ∧ Unit.damage_amount A B = to_B
    ∧ Unit.damage_amount B A = to_A
    ∧ Game.get g' (CoordPair.src coords) = remaining A (Unit.health A - to_A)
    ∧ Game.get g' (CoordPair.dst coords) = remaining B (Unit.health B - to_B)
    ∧ (∃ g'',
         perform_fight_dst_first g coords = Ok g''
         ∧ Game.get g'' (CoordPair.src coords) = Game.get g' (CoordPair.src coords)
         ∧ Game.get g'' (CoordPair.dst coords) = Game.get g' (CoordPair.dst coords))
    ∧ (Unit.type A = Program → Unit.type B = Program →
       Unit.health A = 9 → Unit.health B = 9 →
       Game.get g' (CoordPair.src coords) = Some (Unit.mk (Unit.player A) Program 6)
       ∧ Game.get g' (CoordPair.dst coords) = Some (Unit.mk (Unit.player B) Program 6)).
Proof.
  intros Hvalid HA HB HA9 HB9 to_B to_A.
  destruct (is_valid_move_inv _ _ _ Hvalid) as (_ & _ & _ & _ & _ & Hadj & _).
  apply is_adjacent_ne in Hadj.
  assert (Hsrc : ∀ g1, Game.get g1 (CoordPair.src coords) = Some A →
            Game.get (Game.mod_health g1 (CoordPair.src coords) (- to_A))
                     (CoordPair.src coords)
            = remaining A (Unit.health A - to_A)).
  { intros g1 H1. rewrite (mod_health_get_eq _ _ _ _ H1). unfold to_A.
    rewrite mod_health_damage; [done| |done].
    pose proof (damage_table_positive (Unit.type B) (Unit.type A)). lia. }
  assert (Hdst : ∀ g1, Game.get g1 (CoordPair.dst coords) = Some B →
            Game.get (Game.mod_health g1 (CoordPair.dst coords) (- to_B))
                     (CoordPair.dst coords)
            = remaining B (Unit.health B - to_B)).
  { intros g1 H1. rewrite (mod_health_get_eq _ _ _ _ H1). unfold to_B.
    rewrite mod_health_damage; [done| |done].
    pose proof (damage_table_positive (Unit.type A) (Unit.type B)). lia. }
  assert (Hs : Game.get
            (Game.mod_health
               (Game.mod_health g (CoordPair.src coords) (- to_A))
               (CoordPair.dst coords) (- to_B)) (CoordPair.src coords)
          = remaining A (Unit.health A - to_A)).
  { rewrite mod_health_get_ne by done. by apply Hsrc. }
  assert (Hd : Game.get
            (Game.mod_health
               (Game.mod_health g (CoordPair.src coords) (- to_A))
               (CoordPair.dst coords) (- to_B)) (CoordPair.dst coords)
          = remaining B (Unit.health B - to_B)).
  { apply Hdst. by rewrite mod_health_get_ne. }
  eexists. unfold Game.perform_fight, perform_fight_dst_first.
  rewrite HA, HB, !damage_amount_min. fold to_A to_B.
  split_and!; try done.
  - eexists. split; [done|]. rewrite Hs, Hd. split.
    + apply Hsrc. by rewrite mod_health_get_ne.
    + rewrite mod_health_get_ne by done. by apply Hdst.
  - intros HtA HtB HhA HhB. rewrite Hs, Hd. unfold to_A, to_B, remaining.
    rewrite HtA, HtB, HhA, HhB. split; reflexivity.
Qed.

Lemma perform_fight_simultaneous_witness :
  let g := Game.mk [ [Some (Unit.mk Defender Program 9); Some (Unit.mk Attacker Program 9)]
                   ; [Some (Unit.mk Defender AI 9); Some (Unit.mk Attacker AI 9)] ]
             Attacker 0
             (Options.mk 2 (Some 4) (Some 2) AttackerVsDefender true (Some 100)
                         true None None)
             true true false in
  let coords := CoordPair.mk (Coord.mk 0 1) (Coord.mk 0 0) in
  ∃ g', Game.perform_fight g coords = Ok g'
    ∧ Game.get g' (Coord.mk 0 1) = Some (Unit.mk Attacker Program 6)
    ∧ Game.get g' (Coord.mk 0 0) = Some (Unit.mk Defender Program 6).
Proof.
  intros g coords.
  destruct (perform_fight_simultaneous g coords
              (Unit.mk Attacker Program 9) (Unit.mk Defender Program 9))
    as (g' & Hrun & _ & _ & _ & _ & _ & Hprog);
    [reflexivity|reflexivity|reflexivity|simpl; lia|simpl; lia|].
  exists g'. split; [exact Hrun|].
  apply Hprog; reflexivity.
Defined.

(** ** Legality of a move into an empty cell *)

Lemma elem_of_iter_adjacent (src c : Coord.t) :
  c ∈ Coord.iter_adjacent src ↔ one_step_apart (CoordPair.mk src c).
Proof.
  unfold Coord.iter_adjacent, one_step_apart. destruct src as [r0 c0], c as [r1 c1].
  rewrite !elem_of_cons, elem_of_nil. simpl. split.
  - intros [H|[H|[H|[H|[]]]]]; injection H as -> ->; lia.
  - intros H.
    destruct (decide (r1 = r0 - 1)) as [->|]; [left; f_equal; lia|].
    destruct (decide (c1 = c0 - 1)) as [->|]; [right; left; f_equal; lia|].
    destruct (decide (r1 = r0 + 1)) as [->|]; [do 2 right; left; f_equal; lia|].
    do 3 right; left; f_equal; lia.
Qed.

Lemma is_engaged_in_combat_spec (g : Game.t) (src : Coord.t) :
  Game.is_engaged_in_combat g src = true ↔ engaged g src (Game.next_player g).
Proof.
  unfold Game.is_engaged_in_combat, engaged. rewrite existsb_exists. split.
  - intros (c & Hin & Hc). apply list_elem_of_In, elem_of_iter_adjacent in Hin.
    destruct (Game.get g c) as [u|] eqn:Hu; [|done].
    exists c, u. split_and!; try done.
    apply bool_decide_eq_true in Hc. rewrite Hc.
    by destruct (Game.next_player g).
  - intros (c & u & Hadj & Hu & Hp). exists c. split.
    + by apply list_elem_of_In, elem_of_iter_adjacent.
    + rewrite Hu. apply bool_decide_eq_true.
      by destruct (Unit.player u), (Game.next_player g).
Qed.

(** The movement test of the source agrees with the rule as the
    specification words it. *)
Lemma is_valid_movement_spec (u : Unit.t) (p : Player) (d : Direction) :
  truthy (Unit.is_valid_movement u p (Some d)) = true
  ↔ direction_allowed p (Unit.type u) d.
Proof.
  unfold Unit.is_valid_movement, direction_allowed.
  destruct p, (Unit.type u), d; simpl; split;
    first [ done | by intros [|] | by intros [] | by left | by right ].
Qed.

(** C5: a requested move of a unit into an empty adjacent cell is
    classified as a legal Move exactly when the unit belongs to the player
    to move and (a) it is not engaged, or is a Technician or a Virus, and
    (b) the direction of the move is allowed for the unit's type and owner:
    Up or Left for the Attacker's Command, Program and Firewall units, Down
    or Right for the Defender's, any direction for the Attacker's Virus and
    the Defender's Technician, none for the Defender's Virus and the
    Attacker's Technician.  Otherwise the request is rejected. *)
Theorem move_into_empty_cell (g : Game.t) (coords : CoordPair.t) (u : Unit.t) :
  Game.is_valid_coord g (CoordPair.src coords) = true →
  Game.is_valid_coord g (CoordPair.dst coords) = true →
  Game.get g (CoordPair.src coords) = Some u →
  one_step_apart coords →
  Game.get g (CoordPair.dst coords) = None →
  (Game.is_valid_move g coords = (true, Some Move)
   ↔ Unit.player u = Game.next_player g
     ∧ (¬ engaged g (CoordPair.src coords) (Unit.player u)
        ∨ Unit.type u = Tech ∨ Unit.type u = Virus)
     ∧ ∃ d, CoordPair.get_direction coords = Some d
            ∧ direction_allowed (Unit.player u) (Unit.type u) d)
  ∧ (Game.is_valid_move g coords ≠ (true, Some Move) →
     Game.is_valid_move g coords = (false, None)).
Proof.
  intros Hs Hd Hu Hadj Hempty.
  destruct (decide (Unit.player u = Game.next_player g)) as [Hp|Hp]; cycle 1.
  { unfold Game.is_valid_move. rewrite Hs, Hd, Hu. simpl.
    rewrite bool_decide_eq_true_2 by done.
    split; [|done]. split; [done|]. by intros [? _]. }
  rewrite Hp.
  assert (Hdir : is_Some (CoordPair.get_direction coords)).
  { apply get_direction_defined; unfold one_step_apart, on_one_axis in *; lia. }
  destruct Hdir as [d Hdir]. rewrite Hdir.
  pose proof (is_valid_movement_spec u (Game.next_player g) d) as Hmv.
  pose proof (is_engaged_in_combat_spec g (CoordPair.src coords)) as Heng.
  apply is_adjacent_spec in Hadj as Hadj'.
  assert (Hne : CoordPair.are_coords_equal coords = false).
  { apply not_true_is_false. intros He. apply Coord_equals_spec in He.
    by apply is_adjacent_ne in Hadj'. }
  assert (HA : Game.is_engaged_in_combat g (CoordPair.src coords)
                && bool_decide (Unit.type u ≠ Tech)
                && bool_decide (Unit.type u ≠ Virus) = false
               ↔ (¬ engaged g (CoordPair.src coords) (Game.next_player g)
                  ∨ Unit.type u = Tech ∨ Unit.type u = Virus)).
  { rewrite <- Heng.
    destruct (Game.is_engaged_in_combat g (CoordPair.src coords));
      repeat case_bool_decide; simpl; intuition congruence. }
  assert (HB : truthy (Unit.is_valid_movement u (Game.next_player g) (Some d)) = true
               ↔ ∃ d', Some d = Some d'
                       ∧ direction_allowed (Game.next_player g) (Unit.type u) d').
  { rewrite Hmv. split; [by eauto|].
    by intros (d' & [= <-] & ?). }
  unfold Game.is_valid_move, Game.is_movement_direction_valid.
  rewrite Hs, Hd, Hu, Hne, Hadj', Hempty, Hdir, Hp. simpl.
  rewrite bool_decide_eq_false_2 by (intros H; by apply H).
  destruct (_ && _ && _) eqn:Ea.
  { split; [|done]. split; [done|].
    intros (_ & Hno & _). apply HA in Hno. congruence. }
  destruct (truthy _) eqn:Eb; simpl.
  - split; [|done]. split; [|done].
    intros _. split_and!; [done|by apply HA|by apply HB].
  - split; [|done]. split; [done|].
    intros (_ & _ & Hok). apply HB in Hok. congruence.
Qed.

(** The Attacker's Program at C4 of the initial deployment may move Up. *)
Lemma move_into_empty_cell_witness :
  let g := Game.__post_init__ Options.default in
  let coords := CoordPair.mk (Coord.mk 2 4) (Coord.mk 1 4) in
  Game.is_valid_move g coords = (true, Some Move)
  ∧ (¬ engaged g (Coord.mk 2 4) Attacker
     ∨ Program = Tech ∨ Program = Virus)
  ∧ ∃ d, CoordPair.get_direction coords = Some d
         ∧ direction_allowed Attacker Program d.
Proof.
  intros g coords.
  assert (Hstep : one_step_apart coords).
  { right; simpl; split; reflexivity. }
  split; [reflexivity|].
  apply (proj1 (proj1 (move_into_empty_cell g coords (Unit.mk Attacker Program 9)
                         eq_refl eq_refl eq_refl Hstep eq_refl))).
  reflexivity.
Defined.

(** ** Self-destruct *)

Lemma elem_of_iter_range_1 (c d : Coord.t) :
  d ∈ Coord.iter_range c 1 ↔ in_neighbourhood c d.
Proof.
  unfold Coord.iter_range, in_neighbourhood, range.
  rewrite list_elem_of_bind. split.
  - intros (r & Hd & Hr). apply list_elem_of_bind in Hd as (k & Hd & Hk).
    apply list_elem_of_singleton in Hd as ->. simpl.
    apply elem_of_seqZ in Hr, Hk. lia.
  - intros [Hr Hc]. exists (Coord.row d). split.
    + apply list_elem_of_bind. exists (Coord.col d). split.
      * destruct d; simpl. apply list_elem_of_singleton. done.
      * apply elem_of_seqZ. lia.
    + apply elem_of_seqZ. lia.
Qed.

Lemma NoDup_iter_range (c : Coord.t) (dist : Z) : NoDup (Coord.iter_range c dist).
Proof.
  unfold Coord.iter_range, range. apply NoDup_bind.
  - intros r1 r2 d _ _ H1 H2.
    apply list_elem_of_bind in H1 as (k1 & H1 & _).
    apply list_elem_of_bind in H2 as (k2 & H2 & _).
    apply list_elem_of_singleton in H1, H2. congruence.
  - intros r _. apply NoDup_bind.
    + intros k1 k2 d _ _ H1 H2. apply list_elem_of_singleton in H1, H2. congruence.
    + intros k _. apply NoDup_singleton.
    + apply NoDup_seqZ.
  - apply NoDup_seqZ.
Qed.

(** What the damage loop leaves in each cell. *)
Lemma self_destruct_loop_get (src d : Coord.t) (l : list Coord.t) (g : Game.t) :
  NoDup l →
  Game.get
    (foldl (λ g dst, if Coord.equals src dst then g
                     else Game.mod_health g dst (-2)) g l) d
  = if bool_decide (d ∈ l ∧ d ≠ src) then
      match Game.get g d with
      | Some v => remaining v (Unit.health (Unit.mod_health v (-2)))
      | None => None
      end
    else Game.get g d.
Proof.
  intros Hnd. revert g. induction Hnd as [|a l Ha Hnd IH]; intros g; cbn [foldl].
  { rewrite bool_decide_eq_false_2; [done|]. intros [H _]. by apply elem_of_nil in H. }
  rewrite IH. destruct (Coord.equals src a) eqn:Heq.
  - apply Coord_equals_spec in Heq as <-.
    apply (f_equal (λ b : bool, if b then _ else _)).
    apply bool_decide_ext. rewrite elem_of_cons. intuition congruence.
  - assert (a ≠ src).
    { intros ->. by rewrite (proj2 (Coord_equals_spec src src)) in Heq. }
    destruct (decide (d = a)) as [->|Hda].
    + rewrite (bool_decide_eq_false_2 (a ∈ l ∧ _)) by tauto.
      rewrite bool_decide_eq_true_2 by (split; [left|done]).
      destruct (Game.get g a) as [v|] eqn:Hv.
      * by rewrite (mod_health_get_eq _ _ _ _ Hv).
      * by rewrite mod_health_None.
    + rewrite mod_health_get_ne by done.
      apply (f_equal (λ b : bool, if b then _ else _)).
      apply bool_decide_ext. rewrite elem_of_cons. tauto.
Qed.

(** C6: a self-destruct at [C] (on a board of dimension at least 3) takes
    min(2, health) from every other unit of the 3 x 3 square around [C],
    whatever the types involved, removing those that reach 0; it leaves
    the acting unit with health 0 and cell [C] empty; cells outside the
    square are untouched. *)
Theorem self_destruct_effect (g : Game.t) (C : Coord.t) (u : Unit.t) :
  3 <= Options.dim (Game.options g) →
  Game.get g C = Some u →
  ∃ g',
    Game.perform_self_distruct g C = Ok g'
    ∧ Game.do_move_action g (CoordPair.mk C C) SelfDestruct = Ok g'
    ∧ Unit.health (Unit.mod_health u (- Unit.health u)) = 0
    ∧ Game.get g' C = None
    ∧ (∀ d v, in_neighbourhood C d → d ≠ C →
              Game.get g d = Some v → Unit.health v <= 9 →
              Game.get g' d = remaining v (Unit.health v - Z.min 2 (Unit.health v)))
    ∧ (∀ d, ¬ in_neighbourhood C d → Game.get g' d = Game.get g d).
Proof.
  intros _ Hu. unfold Game.do_move_action, Game.perform_self_distruct; simpl.
  pose proof (λ d, self_destruct_loop_get C d _ g (NoDup_iter_range C 1)) as Hloop.
  rewrite (Hloop C), bool_decide_eq_false_2, Hu by (intros [_ H]; by apply H).
  assert (H0 : Unit.health (Unit.mod_health u (- Unit.health u)) = 0).
  { unfold Unit.mod_health; simpl. repeat case_bool_decide; lia. }
  eexists. split_and!; try done.
  - erewrite mod_health_get_eq; [by rewrite H0|].
    by rewrite (Hloop C), bool_decide_eq_false_2 by (intros [_ H]; by apply H).
  - intros d v Hin Hd Hv H9. rewrite mod_health_get_ne by done.
    rewrite Hloop, bool_decide_eq_true_2, Hv.
    + f_equal. unfold Unit.mod_health; simpl. repeat case_bool_decide; lia.
    + split; [by apply elem_of_iter_range_1|done].
  - intros d Hout. rewrite mod_health_get_ne.
    + rewrite Hloop, bool_decide_eq_false_2; [done|].
      intros [Hin _]. by apply elem_of_iter_range_1 in Hin.
    + intros <-. apply Hout. unfold in_neighbourhood. lia.
Qed.

(** The Attacker's Firewall at D3 of the initial deployment self-destructs:
    its eight neighbours include the three other Attacker units around it,
    which drop from 9 to 7. *)
Lemma self_destruct_effect_witness :
  let g := Game.__post_init__ Options.default in
  ∃ g', Game.perform_self_distruct g (Coord.mk 3 3) = Ok g'
    ∧ Game.get g' (Coord.mk 3 3) = None
    ∧ Game.get g' (Coord.mk 4 4) = Some (Unit.mk Attacker AI 7).
Proof.
  intros g.
  destruct (self_destruct_effect g (Coord.mk 3 3) (Unit.mk Attacker Firewall 9))
    as (g' & Hrun & _ & _ & Hempty & Hnear & _);
    [simpl; lia|reflexivity|].
  exists g'. split; [exact Hrun|]. split; [exact Hempty|].
  apply (Hnear (Coord.mk 4 4) (Unit.mk Attacker AI 9)).
  - unfold in_neighbourhood; simpl. lia.
  - discriminate.
  - reflexivity.
  - simpl. lia.
Defined.

(** ** Occupancy after an action *)

(** C7, as stated, fails for Attack: the Attacker's Virus attacks the
    Defender's Command unit at full health, deals 9, and the Command unit's
    cell is empty afterwards. *)
Lemma attack_empties_cell :
  let g := Game.mk [ [Some (Unit.mk Defender AI 9); Some (Unit.mk Attacker Virus 9)]
                   ; [None; Some (Unit.mk Attacker AI 9)] ]
             Attacker 0
             (Options.mk 2 (Some 4) (Some 2) AttackerVsDefender true (Some 100)
                         true None None)
             true true false in
  let coords := CoordPair.mk (Coord.mk 0 1) (Coord.mk 0 0) in
  Game.is_valid_move g coords = (true, Some Attack)
  ∧ ∃ g', Game.do_move_action g coords Attack = Ok g'
          ∧ occupant g (Coord.mk 0 0) = Some (Defender, AI)
          ∧ occupant g' (Coord.mk 0 0) = None
          ∧ occupant g' (Coord.mk 0 0) ≠ occupant g (Coord.mk 0 0).
Proof.
  split; [reflexivity|]. eexists. split; [reflexivity|].
  split_and!; try reflexivity. discriminate.
Qed.

Lemma occupant_remaining_alive g g' c v h :
  Game.get g c = Some v → Game.get g' c = remaining v h → h > 0 →
  occupant g' c = occupant g c.
Proof.
  intros Hv Hv' Hh. unfold occupant, remaining in *.
  rewrite Hv, Hv', bool_decide_eq_true_2 by done. done.
Qed.

Lemma occupant_remaining g g' c v h :
  Game.get g c = Some v → Game.get g' c = remaining v h →
  occupant g' c = occupant g c ∨ Game.get g' c = None.
Proof.
  intros Hv Hv'. unfold occupant, remaining in *. rewrite Hv, Hv'.
  case_bool_decide; [by left|by right].
Qed.

(** C7 (amended): on a well-formed board whose units all have health 1..9,
    a legal Move leaves the moved unit in the destination cell and the
    source cell empty, other cells untouched.  A legal Repair changes the
    occupant of no cell: the target stays where it is with its health
    raised by the repair amount, and every other cell is untouched.  A
    legal Attack leaves every cell other than source and destination
    untouched; the source unit is left with its health less the
    destination unit's damage against it, the destination unit with its
    health less the source unit's damage against it (each damage being the
    table value capped at the victim's health), and each of the two keeps
    its cell when the health left is positive and is removed from it, the
    cell becoming empty, exactly when the health left is 0. *)
Theorem occupancy_after_action (g : Game.t) (coords : CoordPair.t) :
  board_wf g → units_ok g →
  (Game.is_valid_move g coords = (true, Some Move) →
   ∃ g' u,
     Game.do_move_action g coords Move = Ok g'
     ∧ Game.get g (CoordPair.src coords) = Some u
     ∧ Game.get g' (CoordPair.dst coords) = Some u
     ∧ Game.get g' (CoordPair.src coords) = None
     ∧ ∀ c, c ≠ CoordPair.src coords → c ≠ CoordPair.dst coords →
            Game.get g' c = Game.get g c)
  ∧ (Game.is_valid_move g coords = (true, Some Repair) →
     ∃ g' A B,
       Game.do_move_action g coords Repair = Ok g'
       ∧ Game.get g (CoordPair.src coords) = Some A
       ∧ Game.get g (CoordPair.dst coords) = Some B
       ∧ 0 < Unit.repair_amount A B
       ∧ Unit.health B + Unit.repair_amount A B <= 9
       ∧ Game.get g' (CoordPair.dst coords)
         = Some (Unit.mk (Unit.player B) (Unit.type B)
                         (Unit.health B + Unit.repair_amount A B))
       ∧ (∀ c, occupant g' c = occupant g c)
       ∧ ∀ c, c ≠ CoordPair.dst coords → Game.get g' c = Game.get g c)
  ∧ (Game.is_valid_move g coords = (true, Some Attack) →
     ∃ g' A B,
       Game.do_move_action g coords Attack = Ok g'
       ∧ Game.get g (CoordPair.src coords) = Some A
       ∧ Game.get g (CoordPair.dst coords) = Some B
       ∧ (let left_A :=
            Unit.health A
            - Z.min (Unit.table_at Unit.damage_table (Unit.type B) (Unit.type A))
                    (Unit.health A) in
          let left_B :=
            Unit.health B
            - Z.min (Unit.table_at Unit.damage_table (Unit.type A) (Unit.type B))
                    (Unit.health B) in
          0 <= left_A < Unit.health A
          ∧ 0 <= left_B < Unit.health B
          ∧ Game.get g' (CoordPair.src coords) = remaining A left_A
          ∧ Game.get g' (CoordPair.dst coords) = remaining B left_B
          ∧ (0 < left_A →
             Game.get g' (CoordPair.src coords)
             = Some (Unit.mk (Unit.player A) (Unit.type A) left_A)
             ∧ occupant g' (CoordPair.src coords) = occupant g (CoordPair.src coords))
          ∧ (left_A = 0 → Game.get g' (CoordPair.src coords) = None)
          ∧ (0 < left_B →
             Game.get g' (CoordPair.dst coords)
             = Some (Unit.mk (Unit.player B) (Unit.type B) left_B)
             ∧ occupant g' (CoordPair.dst coords) = occupant g (CoordPair.dst coords))
          ∧ (left_B = 0 → Game.get g' (CoordPair.dst coords) = None))
       ∧ (∀ c, c ≠ CoordPair.src coords → c ≠ CoordPair.dst coords →
               Game.get g' c = Game.get g c)
       ∧ ∀ c, occupant g' c = occupant g c
              ∨ (Game.get g' c = None
                 ∧ (c = CoordPair.src coords ∨ c = CoordPair.dst coords))).
Proof.
  intros Hwf Hok. split_and!; intros Hvalid;
    destruct (is_valid_move_inv _ _ _ Hvalid) as (u & Hu & Hp & Hs & Hd & Hact).
  - destruct Hact as [Hadj Hempty]. apply is_adjacent_ne in Hadj.
    simpl. rewrite Hu. eexists _, u. split_and!; try done.
    + rewrite get_set_ne by done. by apply get_set_eq_wf.
    + eapply get_set_eq. rewrite get_set_ne by done. exact Hu.
    + intros c Hcs Hcd. by rewrite !get_set_ne.
  - destruct Hact as (Hadj & v & Hv & _ & Hamount & _).
    pose proof (units_ok_get _ _ _ Hok Hv) as Hhealth.
    assert (Hcap : Unit.health v + Unit.repair_amount u v <= 9).
    { unfold Unit.repair_amount. case_bool_decide; lia. }
    assert (Hnew : Unit.mod_health v (Unit.repair_amount u v)
                   = Unit.mk (Unit.player v) (Unit.type v)
                       (Unit.health v + Unit.repair_amount u v)).
    { unfold Unit.mod_health. f_equal. repeat case_bool_decide; lia. }
    assert (Hcell : ∀ g1, Game.get g1 (CoordPair.dst coords) = Some v →
              Game.get (Game.mod_health g1 (CoordPair.dst coords)
                          (Unit.repair_amount u v)) (CoordPair.dst coords)
              = Some (Unit.mk (Unit.player v) (Unit.type v)
                        (Unit.health v + Unit.repair_amount u v))).
    { intros g1 H1. rewrite (mod_health_get_eq _ _ _ _ H1), Hnew.
      unfold remaining; simpl. by rewrite bool_decide_eq_true_2 by lia. }
    simpl. unfold Game.perform_repair. rewrite Hu, Hv.
    eexists _, u, v. split_and!; try done; try lia.
    + by apply Hcell.
    + intros c. destruct (decide (c = CoordPair.dst coords)) as [->|Hc].
      * unfold occupant. by rewrite (Hcell g Hv), Hv.
      * unfold occupant. by rewrite mod_health_get_ne.
    + intros c Hc. by rewrite mod_health_get_ne.
  - destruct Hact as (Hadj & v & Hv & _). apply is_adjacent_ne in Hadj.
    pose proof (units_ok_get _ _ _ Hok Hu) as HhA.
    pose proof (units_ok_get _ _ _ Hok Hv) as HhB.
    pose proof (damage_table_positive (Unit.type v) (Unit.type u)) as HtA.
    pose proof (damage_table_positive (Unit.type u) (Unit.type v)) as HtB.
    simpl. unfold Game.perform_fight. rewrite Hu, Hv, !damage_amount_min.
    set (dA := Z.min (Unit.table_at Unit.damage_table (Unit.type v) (Unit.type u))
                     (Unit.health u)) in *.
    set (dB := Z.min (Unit.table_at Unit.damage_table (Unit.type u) (Unit.type v))
                     (Unit.health v)) in *.
    set (g' := Game.mod_health (Game.mod_health g (CoordPair.src coords) (- dA))
                 (CoordPair.dst coords) (- dB)).
    assert (Hsrc : Game.get g' (CoordPair.src coords)
                   = remaining u (Unit.health u - dA)).
    { unfold g'. rewrite mod_health_get_ne by done.
      rewrite (mod_health_get_eq _ _ _ _ Hu). unfold dA.
      rewrite mod_health_damage; [done|lia|lia]. }
    assert (Hdst : Game.get g' (CoordPair.dst coords)
                   = remaining v (Unit.health v - dB)).
    { unfold g'. erewrite mod_health_get_eq; [|by rewrite mod_health_get_ne].
      unfold dB. rewrite mod_health_damage; [done|lia|lia]. }
    exists g', u, v.
    split; [done|]. split; [done|]. split; [done|]. split; [|split].
    + cbn zeta. fold dA dB.
      assert (HdA : 0 < dA <= Unit.health u) by (unfold dA; lia).
      assert (HdB : 0 < dB <= Unit.health v) by (unfold dB; lia).
      split; [lia|]. split; [lia|]. split; [exact Hsrc|]. split; [exact Hdst|].
      split_and!.
      * intros Hpos. rewrite Hsrc. unfold occupant, remaining.
        rewrite Hsrc, Hu. unfold remaining.
        by rewrite !bool_decide_eq_true_2 by lia.
      * intros H0. rewrite Hsrc. unfold remaining.
        by rewrite bool_decide_eq_false_2 by lia.
      * intros Hpos. rewrite Hdst. unfold occupant, remaining.
        rewrite Hdst, Hv. unfold remaining.
        by rewrite !bool_decide_eq_true_2 by lia.
      * intros H0. rewrite Hdst. unfold remaining.
        by rewrite bool_decide_eq_false_2 by lia.
    + intros c Hcs Hcd. unfold g'. by rewrite !mod_health_get_ne.
    + intros c. destruct (decide (c = CoordPair.dst coords)) as [->|Hcd].
      * destruct (occupant_remaining g g' _ _ _ Hv Hdst) as [H|H]; eauto.
      * destruct (decide (c = CoordPair.src coords)) as [->|Hcs].
        -- destruct (occupant_remaining g g' _ _ _ Hu Hsrc) as [H|H]; eauto.
        -- left. unfold occupant, g'. by rewrite !mod_health_get_ne.
Qed.

(** The Attacker's Program at C4 of the initial deployment moves Up; on a
    small board the Defender's Technician repairs its damaged Command unit,
    which stays where it is with health 8; and of two Programs at health 9
    that fight, both stay in their cells with health 6. *)
Lemma occupancy_after_action_witness :
  (let g := Game.__post_init__ Options.default in
   let coords := CoordPair.mk (Coord.mk 2 4) (Coord.mk 1 4) in
   ∃ g' u,
     Game.do_move_action g coords Move = Ok g'
     ∧ Game.get g (Coord.mk 2 4) = Some u
     ∧ Game.get g' (Coord.mk 1 4) = Some u
     ∧ Game.get g' (Coord.mk 2 4) = None)
  ∧ (let g := Game.mk [ [Some (Unit.mk Defender Tech 9); Some (Unit.mk Defender AI 5)]
                      ; [None; Some (Unit.mk Attacker AI 9)] ]
                Defender 1
                (Options.mk 2 (Some 4) (Some 2) AttackerVsDefender true (Some 100)
                            true None None)
                true true false in
     let coords := CoordPair.mk (Coord.mk 0 0) (Coord.mk 0 1) in
     ∃ g',
       Game.do_move_action g coords Repair = Ok g'
       ∧ Game.get g' (Coord.mk 0 1) = Some (Unit.mk Defender AI 8)
       ∧ occupant g' (Coord.mk 0 1) = occupant g (Coord.mk 0 1))
  ∧ (let g := Game.mk [ [Some (Unit.mk Defender Program 9);
                         Some (Unit.mk Attacker Program 9)]
                      ; [Some (Unit.mk Defender AI 9); Some (Unit.mk Attacker AI 9)] ]
                Attacker 0
                (Options.mk 2 (Some 4) (Some 2) AttackerVsDefender true (Some 100)
                            true None None)
                true true false in
     let coords := CoordPair.mk (Coord.mk 0 1) (Coord.mk 0 0) in
     ∃ g',
       Game.do_move_action g coords Attack = Ok g'
       ∧ Game.get g' (Coord.mk 0 1) = Some (Unit.mk Attacker Program 6)
       ∧ Game.get g' (Coord.mk 0 0) = Some (Unit.mk Defender Program 6)).
Proof.
  split_and!.
  - intros g coords.
    assert (Hwf : board_wf g).
    { unfold board_wf, g; simpl. split; [reflexivity|]. repeat constructor. }
    assert (Hok : units_ok g).
    { unfold units_ok, g; simpl. repeat constructor; simpl; lia. }
    destruct (proj1 (occupancy_after_action g coords Hwf Hok) eq_refl)
      as (g' & u & Hrun & Hu & Hdst & Hsrc & _).
    exists g', u. repeat split; assumption.
  - intros g coords.
    assert (Hwf : board_wf g).
    { unfold board_wf, g; simpl. split; [reflexivity|]. repeat constructor. }
    assert (Hok : units_ok g).
    { unfold units_ok, g; simpl. repeat constructor; simpl; lia. }
    destruct (proj1 (proj2 (occupancy_after_action g coords Hwf Hok)) eq_refl)
      as (g' & A & B & Hrun & HA & HB & _ & _ & Hcell & Hocc & _).
    injection HA as <-. injection HB as <-.
    exists g'. split_and!; [exact Hrun|exact Hcell|apply Hocc].
  - intros g coords.
    assert (Hwf : board_wf g).
    { unfold board_wf, g; simpl. split; [reflexivity|]. repeat constructor. }
    assert (Hok : units_ok g).
    { unfold units_ok, g; simpl. repeat constructor; simpl; lia. }
    destruct (proj2 (proj2 (occupancy_after_action g coords Hwf Hok)) eq_refl)
      as (g' & A & B & Hrun & HA & HB & Hcells & _).
    injection HA as <-. injection HB as <-.
    destruct Hcells as (_ & _ & _ & _ & Hsrc & _ & Hdst & _).
    exists g'. split_and!; [exact Hrun| |].
    + apply Hsrc. by vm_compute.
    + apply Hdst. by vm_compute.
Defined.

(** ** The two searches *)

Section alpha_beta.

Variable clock : nat → comparison.
Variable self : Game.t.

(** With nothing selected yet, a loop of the pruning search cannot return:
    an empty loop leaves [bestMove] unbound, and the first child's value, if
    it is the method object, cannot be compared with the initial best. *)
Lemma alpha_beta_max_no_result recurse children a b st :
  (∀ child a b st r, recurse child a b st = Ok r → r.1.1 = VMethod) →
  ∀ r, Minimax.alpha_beta_max recurse children VNegInf None a b st ≠ Ok r.
Proof.
  intros Hrec r. destruct children as [|[move [child|e|]] children]; simpl; try done.
  destruct (recurse _ a b st) as [[[v m] st']|e|] eqn:Hr; simpl; try done.
  apply Hrec in Hr. simpl in Hr. by subst v.
Qed.

Lemma alpha_beta_min_no_result recurse children a b st :
  (∀ child a b st r, recurse child a b st = Ok r → r.1.1 = VMethod) →
  ∀ r, Minimax.alpha_beta_min recurse children VPosInf None a b st ≠ Ok r.
Proof.
  intros Hrec r. destruct children as [|[move [child|e|]] children]; simpl; try done.
  destruct (recurse _ a b st) as [[[v m] st']|e|] eqn:Hr; simpl; try done.
  apply Hrec in Hr. simpl in Hr. by subst v.
Qed.

(** The pruning search returns only from a leaf, and then its "score" is
    the method object. *)
Lemma alpha_beta_search_result fuel max_player curDepth maxDepth node a b st r :
  Minimax.alpha_beta_search clock self fuel max_player curDepth maxDepth node a b st
    = Ok r →
  r.1 = (VMethod, None).
Proof.
  revert max_player curDepth node a b st r.
  induction fuel as [|fuel IH]; intros max_player curDepth node a b st r; [done|].
  cbn [Minimax.alpha_beta_search].
  destruct (if bool_decide _ then _ else _) as [late st'].
  destruct (_ || _ || _).
  - by intros [= <-].
  - destruct max_player; intros Hr; exfalso.
    + eapply alpha_beta_max_no_result; [|exact Hr].
      intros child a' b' st0 r0 H0. apply IH in H0. by destruct r0 as [[??]?]; simplify_eq/=.
    + eapply alpha_beta_min_no_result; [|exact Hr].
      intros child a' b' st0 r0 H0. apply IH in H0. by destruct r0 as [[??]?]; simplify_eq/=.
Qed.

End alpha_beta.

(** C2 fails on the code.  Under any clock and from any state, the search
    with pruning never returns an integer score: it returns the method
    object from a leaf or raises.  On the initial deployment with the
    program's default settings for a computer game (depth 4, heuristic e0)
    and a clock that never runs out, the search without pruning returns
    score 0 and the search with pruning raises TypeError. *)
Theorem pruning_returns_no_score :
  (∀ clock self fuel max_player curDepth maxDepth node a b st r,
     Minimax.alpha_beta_search clock self fuel max_player curDepth maxDepth
       node a b st = Ok r →
     r.1 = (VMethod, None))
  ∧ (let settings alpha_beta :=
       Options.mk 5 (Some 4) (Some 2) CompVsComp alpha_beta (Some 100) true
                  None (Some "e0"%string) in
     returned_score
       (Minimax.get_best_move_minimax in_time
          (Game.__post_init__ (settings false)) 10 ∅) = Ok (VInt 0)
     ∧ returned_score
         (Minimax.get_best_move_minimax in_time
            (Game.__post_init__ (settings true)) 10 ∅) = Raise TypeError).
Proof.
  split; [apply alpha_beta_search_result|].
  split; vm_compute; reflexivity.
Qed.

(** ** Searching without a known heuristic *)

Lemma do_move_action_options g coords action g' :
  Game.do_move_action g coords action = Ok g' →
  Game.options g' = Game.options g.
Proof.
  destruct action; simpl.
  - unfold Game.perform_self_distruct. set (g1 := foldl _ g _).
    assert (H1 : Game.options g1 = Game.options g).
    { apply (self_destruct_loop_inv (λ g0, Game.options g0 = Game.options g));
        [|done].
      intros g0 d _ H0. by rewrite mod_health_options. }
    destruct (Game.get g1 _); [|done]. intros [= <-].
    by rewrite mod_health_options.
  - intros [= <-]. by rewrite !options_set.
  - unfold Game.perform_fight.
    destruct (Game.get g _); [|done]. destruct (Game.get g _); [|done].
    intros [= <-]. by rewrite !mod_health_options.
  - unfold Game.perform_repair.
    destruct (Game.get g _); [|done]. destruct (Game.get g _); [|done].
    intros [= <-]. by rewrite !mod_health_options.
Qed.

Lemma get_child_states_options g :
  Forall (λ entry, ∀ child, entry.2 = Ok child →
                   Game.options (Game.next_turn child) = Game.options g)
         (Game.get_child_states g).
Proof.
  unfold Game.get_child_states. apply Forall_fmap, Forall_forall.
  intros [move action] _ child; simpl. intros H.
  by apply do_move_action_options in H.
Qed.

Section search_without_score.

Variable clock : nat → comparison.
Variable self : Game.t.
Variable o : Options.t.
Hypothesis unknown : ¬ known_heuristic (Options.heuristic o).

Lemma search_max_no_integer recurse cur children value best st r :
  (∀ child st r, Game.options child = o → recurse child st = Ok r → no_integer r) →
  Forall (λ entry, ∀ child, entry.2 = Ok child →
                   Game.options (Game.next_turn child) = o) children →
  (∀ z, value ≠ VInt z) →
  Minimax.search_max self recurse cur children value best st = Ok r →
  no_integer r.
Proof.
  intros Hrec Hch. revert value best st.
  induction Hch as [|[mv [child|e|]] children Hc Hch IH];
    intros value best st Hvalue; simpl; try done.
  { intros [= <-]. exact Hvalue. }
  destruct (recurse _ st) as [[[v m] st']|e|] eqn:Hr; simpl; try done.
  apply Hrec in Hr; [|by apply Hc].
  destruct (py_gt v value) as [[]|e|]; simpl; try done; apply IH; try done.
Qed.

Lemma search_min_no_integer recurse cur children value best st r :
  (∀ child st r, Game.options child = o → recurse child st = Ok r → no_integer r) →
  Forall (λ entry, ∀ child, entry.2 = Ok child →
                   Game.options (Game.next_turn child) = o) children →
  (∀ z, value ≠ VInt z) →
  Minimax.search_min self recurse cur children value best st = Ok r →
  no_integer r.
Proof.
  intros Hrec Hch. revert value best st.
  induction Hch as [|[mv [child|e|]] children Hc Hch IH];
    intros value best st Hvalue; simpl; try done.
  { intros [= <-]. exact Hvalue. }
  destruct (recurse _ st) as [[[v m] st']|e|] eqn:Hr; simpl; try done.
  apply Hrec in Hr; [|by apply Hc].
  destruct (py_lt v value) as [[]|e|]; simpl; try done; apply IH; try done.
Qed.

Lemma search_no_integer fuel state cur maxDepth maximizing st r :
  Game.options state = o →
  Minimax.search clock self fuel state cur maxDepth maximizing st = Ok r →
  no_integer r.
Proof.
  revert state cur maximizing st r.
  induction fuel as [|fuel IH]; intros state cur maximizing st r Ho; [done|].
  cbn [Minimax.search].
  destruct (if bool_decide _ then _ else _) as [late st'].
  destruct (_ || _ || _).
  - intros [= <-] z. simpl.
    rewrite calculate_heuristic_unknown; [simpl; discriminate|].
    rewrite Ho. exact unknown.
  - pose proof (get_child_states_options state) as Hch. rewrite Ho in Hch.
    destruct maximizing; intros Hr.
    + eapply search_max_no_integer; [| exact Hch | | exact Hr]; [|done].
      intros child st0 r0 Hc H0. exact (IH _ _ _ _ _ Hc H0).
    + eapply search_min_no_integer; [| exact Hch | | exact Hr]; [|done].
      intros child st0 r0 Hc H0. exact (IH _ _ _ _ _ Hc H0).
Qed.

End search_without_score.

(** C10: [calculate_heuristic] returns an integer exactly when the
    configured heuristic is "e0", "e1" or "e2"; for every other setting,
    the unset default among them, it returns [None].  A search over a state
    configured that way never produces an integer score, and on the initial
    deployment with the default options (pruning switched off, so that the
    plain search runs) it raises TypeError at the first comparison. *)
Theorem heuristic_needs_known_name :
  (∀ g, known_heuristic (Options.heuristic (Game.options g)) →
        ∃ score, Game.calculate_heuristic g = Some score)
  ∧ (∀ g, ¬ known_heuristic (Options.heuristic (Game.options g)) →
          Game.calculate_heuristic g = None)
  ∧ Options.heuristic Options.default = None
  ∧ Game.calculate_heuristic (Game.__post_init__ Options.default) = None
  ∧ (∀ clock self fuel state cur maxDepth maximizing st r,
       ¬ known_heuristic (Options.heuristic (Game.options state)) →
       Minimax.search clock self fuel state cur maxDepth maximizing st = Ok r →
       ∀ z, r.1.1 ≠ VInt z)
  ∧ returned_score
      (Minimax.get_best_move_minimax in_time
         (Game.__post_init__
            (Options.mk 5 (Some 4) (Some 2) AttackerVsDefender false (Some 100)
                        true None None)) 10 ∅)
    = Raise TypeError.
Proof.
  split_and!.
  - apply calculate_heuristic_known.
  - apply calculate_heuristic_unknown.
  - reflexivity.
  - reflexivity.
  - intros clock self fuel state cur maxDepth maximizing st r Hunknown Hr.
    by eapply (search_no_integer clock self _ Hunknown).
  - vm_compute; reflexivity.
Qed.

Lemma heuristic_needs_known_name_witness :
  (∃ score,
     Game.calculate_heuristic
       (Game.__post_init__
          (Options.mk 5 (Some 4) (Some 2) CompVsComp true (Some 100) true None
                      (Some "e2"%string))) = Some score)
  ∧ Game.calculate_heuristic
      (Game.__post_init__
         (Options.mk 5 (Some 4) (Some 2) CompVsComp true (Some 100) true None
                     (Some "e3"%string))) = None.
Proof.
  split.
  - apply (proj1 heuristic_needs_known_name).
    right; right; reflexivity.
  - apply (proj1 (proj2 heuristic_needs_known_name)).
    intros [H|[H|H]]; discriminate H.
Defined.

(** * Further properties of the rules engine *)

(** ** The whole effect of a health modification *)

Lemma get_Some_valid g c u :
  Game.get g c = Some u → Game.is_valid_coord g c = true.
Proof. unfold Game.get. by destruct (Game.is_valid_coord g c). Qed.

Lemma mod_health_eq g c delta u :
  Game.get g c = Some u →
  Game.mod_health g c delta
  = let u' := Unit.mod_health u delta in
    let dead := negb (Unit.is_alive u') in
    Game.mk (Game.board (Game.set g c (remaining u (Unit.health u'))))
      (Game.next_player g) (Game.turns_played g) (Game.options g)
      (if dead && bool_decide (Unit.type u = AI)
          && bool_decide (Unit.player u = Attacker)
       then false else Game._attacker_has_ai g)
      (if dead && bool_decide (Unit.type u = AI)
          && negb (bool_decide (Unit.player u = Attacker))
       then false else Game._defender_has_ai g)
      (Game.skip_logs g).
Proof.
  intros Hu. pose proof (get_Some_valid _ _ _ Hu) as Hc.
  unfold Game.mod_health, Game.remove_dead. rewrite Hu.
  rewrite (get_set_eq _ _ _ _ Hu), remaining_mod_health. cbn zeta.
  destruct (Unit.is_alive (Unit.mod_health u delta)); simpl.
  - unfold Game.set. rewrite Hc. by destruct g.
  - rewrite set_set. unfold Game.set. rewrite Hc.
    destruct g; simpl. by repeat case_bool_decide.
Qed.

Lemma mod_health_flag_alive g c delta u p :
  Game.get g c = Some u →
  Unit.is_alive (Unit.mod_health u delta) = true →
  has_ai_flag (Game.mod_health g c delta) p = has_ai_flag g p.
Proof.
  intros Hu Halive. rewrite (mod_health_eq _ _ _ _ Hu). cbn zeta.
  rewrite Halive. by destruct p.
Qed.

(** ** Repair *)

Lemma repair_amount_min (healer target : Unit.t) :
  Unit.repair_amount healer target
  = Z.min (Unit.table_at Unit.repair_table (Unit.type healer) (Unit.type target))
          (9 - Unit.health target).
Proof. unfold Unit.repair_amount. case_bool_decide; lia. Qed.

Lemma repair_table_cases (a b : UnitType) :
  Unit.table_at Unit.repair_table a b
  = match a, b with
    | AI, (Tech | Virus) => 1
    | Tech, (AI | Program | Firewall) => 3
    | _, _ => 0
    end.
Proof. by destruct a, b. Qed.

(** X1: a legal Repair by the unit A at [src] of the unit B at [dst] adds
    to B's health the table amount of A for B, capped so that B does not
    pass 9; the amount is positive, B stays in its cell, no other cell and
    neither has-AI flag changes. *)
Theorem perform_repair_effect (g : Game.t) (coords : CoordPair.t) (A B : Unit.t) :
  Game.is_valid_move g coords = (true, Some Repair) →
  Game.get g (CoordPair.src coords) = Some A →
  Game.get g (CoordPair.dst coords) = Some B →
  0 <= Unit.health B →
  let amount := Z.min (Unit.table_at Unit.repair_table (Unit.type A) (Unit.type B))
                      (9 - Unit.health B) in
  ∃ g',
    Game.do_move_action g coords Repair = Ok g'
    ∧ 0 < amount
    ∧ Unit.health B + amount <= 9
    ∧ Game.get g' (CoordPair.dst coords)
      = Some (Unit.mk (Unit.player B) (Unit.type B) (Unit.health B + amount))
    ∧ (∀ c, c ≠ CoordPair.dst coords → Game.get g' c = Game.get g c)
    ∧ (∀ p, has_ai_flag g' p = has_ai_flag g p).
Proof.
  intros Hvalid HA HB HB0 amount.
  destruct (is_valid_move_inv _ _ _ Hvalid) as (A' & HA' & _ & _ & _ & _ & B' & HB' & _ & Hpos & _).
  rewrite HA in HA'. rewrite HB in HB'. injection HA' as <-. injection HB' as <-.
  rewrite repair_amount_min in Hpos. fold amount in Hpos.
  assert (Hnew : Unit.mod_health B amount
                 = Unit.mk (Unit.player B) (Unit.type B) (Unit.health B + amount)).
  { unfold Unit.mod_health. f_equal. repeat case_bool_decide; lia. }
  simpl. unfold Game.perform_repair. rewrite HA, HB, repair_amount_min.
  fold amount. eexists. split_and!; try done; try lia.
  - rewrite (mod_health_get_eq _ _ _ _ HB), Hnew. unfold remaining; simpl.
    rewrite bool_decide_eq_true_2 by lia. done.
  - intros c Hc. by rewrite mod_health_get_ne.
  - intros p. apply (mod_health_flag_alive _ _ _ _ _ HB).
    rewrite Hnew. unfold Unit.is_alive; simpl. apply bool_decide_eq_true. lia.
Qed.

(** The Defender's Technician repairs its Command unit from 5 to 8. *)
Lemma perform_repair_effect_witness :
  let g := Game.mk [ [Some (Unit.mk Defender Tech 9); Some (Unit.mk Defender AI 5)]
                   ; [None; Some (Unit.mk Attacker AI 9)] ]
             Defender 1
             (Options.mk 2 (Some 4) (Some 2) AttackerVsDefender true (Some 100)
                         true None None)
             true true false in
  let coords := CoordPair.mk (Coord.mk 0 0) (Coord.mk 0 1) in
  ∃ g', Game.do_move_action g coords Repair = Ok g'
        ∧ Game.get g' (Coord.mk 0 1) = Some (Unit.mk Defender AI 8).
Proof.
  intros g coords.
  destruct (perform_repair_effect g coords (Unit.mk Defender Tech 9)
              (Unit.mk Defender AI 5))
    as (g' & Hrun & _ & _ & Hdst & _);
    [reflexivity|reflexivity|reflexivity|simpl; lia|].
  exists g'. split; [exact Hrun|exact Hdst].
Defined.

(** X2: a request aimed at an adjacent cell holding a unit of the player
    to move is a legal Repair exactly when the target's health is below 9
    and the pair of types has a positive repair value, that is a Technician
    repairing a Command, Program or Firewall unit, or a Command unit
    repairing a Technician or a Virus; every other request at a friendly
    unit is rejected. *)
Theorem repair_legality (g : Game.t) (coords : CoordPair.t) (A B : Unit.t) :
  Game.get g (CoordPair.src coords) = Some A →
  Unit.player A = Game.next_player g →
  one_step_apart coords →
  Game.get g (CoordPair.dst coords) = Some B →
  Unit.player B = Game.next_player g →
  (Game.is_valid_move g coords = (true, Some Repair)
   ↔ Unit.health B < 9
     ∧ ((Unit.type A = Tech
         ∧ (Unit.type B = AI ∨ Unit.type B = Program ∨ Unit.type B = Firewall))
        ∨ (Unit.type A = AI ∧ (Unit.type B = Tech ∨ Unit.type B = Virus))))
  ∧ (Game.is_valid_move g coords ≠ (true, Some Repair) →
     Game.is_valid_move g coords = (false, None)).
Proof.
  intros HA HpA Hadj HB HpB.
  apply is_adjacent_spec in Hadj as Hadj'.
  assert (Hne : CoordPair.are_coords_equal coords = false).
  { apply not_true_is_false. intros He. apply Coord_equals_spec in He.
    by apply is_adjacent_ne in Hadj'. }
  unfold Game.is_valid_move.
  rewrite (get_Some_valid _ _ _ HA), (get_Some_valid _ _ _ HB), HA, HB, Hne, Hadj'.
  simpl. rewrite bool_decide_eq_false_2 by (by intros H; apply H).
  rewrite bool_decide_eq_true_2 by done.
  unfold Game.is_repair_zero, Unit.has_full_health.
  rewrite repair_amount_min, repair_table_cases.
  destruct (Unit.type A), (Unit.type B); simpl;
    repeat case_bool_decide; simpl; (split; [split|]);
    first [ done
          | intros _; first [ exfalso; lia | split; [lia|intuition] ]
          | intros [? ?]; first [ lia | intuition discriminate ] ].
Qed.

Lemma repair_legality_witness :
  let g := Game.__post_init__ Options.default in
  let coords := CoordPair.mk (Coord.mk 4 4) (Coord.mk 3 4) in
  Game.is_valid_move g coords = (false, None).
Proof.
  intros g coords.
  assert (Hstep : one_step_apart coords).
  { right; simpl; split; reflexivity. }
  apply (proj2 (repair_legality g coords (Unit.mk Attacker AI 9)
                  (Unit.mk Attacker Virus 9) eq_refl eq_refl Hstep eq_refl eq_refl)).
  intros H. vm_compute in H. discriminate H.
Defined.

(** ** Requests that are always accepted, and requests that never are *)

(** X3: a request is rejected, with no action type, when either coordinate
    is off the board, when the source cell is empty or holds a unit of the
    player who is not to move, or when the destination is neither the
    source nor one step from it; and whatever the request, the answer is
    either a rejection without action type or an acceptance with one. *)
Theorem is_valid_move_rejections (g : Game.t) (coords : CoordPair.t) :
  (Game.is_valid_coord g (CoordPair.src coords) = false
   ∨ Game.is_valid_coord g (CoordPair.dst coords) = false
   ∨ Game.get g (CoordPair.src coords) = None
   ∨ (∃ u, Game.get g (CoordPair.src coords) = Some u
           ∧ Unit.player u ≠ Game.next_player g)
   ∨ (CoordPair.src coords ≠ CoordPair.dst coords ∧ ¬ one_step_apart coords) →
   Game.is_valid_move g coords = (false, None))
  ∧ (Game.is_valid_move g coords = (false, None)
     ∨ ∃ action, Game.is_valid_move g coords = (true, Some action)).
Proof.
  split.
  - intros Hbad. unfold Game.is_valid_move.
    destruct (Game.is_valid_coord g (CoordPair.src coords)) eqn:Hs; [|done].
    destruct (Game.is_valid_coord g (CoordPair.dst coords)) eqn:Hd; [|done].
    simpl. destruct (Game.get g (CoordPair.src coords)) as [u|] eqn:Hu; [|done].
    case_bool_decide as Hp; [done|].
    destruct Hbad as [?|[?|[?|[(v & [= <-] & Hv)|[Hne Hfar]]]]]; try done.
    destruct (CoordPair.are_coords_equal coords) eqn:Heq.
    { by apply Coord_equals_spec in Heq. }
    destruct (CoordPair.is_adjacent coords) eqn:Hadj; [|done].
    by apply is_adjacent_spec in Hadj.
  - unfold Game.is_valid_move.
    repeat first [ case_bool_decide | case_match ]; eauto.
Qed.

Lemma is_valid_move_rejections_witness :
  let g := Game.__post_init__ Options.default in
  Game.is_valid_move g (CoordPair.mk (Coord.mk 4 4) (Coord.mk 4 5)) = (false, None)
  ∧ Game.is_valid_move g (CoordPair.mk (Coord.mk 0 0) (Coord.mk 0 0)) = (false, None)
  ∧ Game.is_valid_move g (CoordPair.mk (Coord.mk 2 4) (Coord.mk 0 4)) = (false, None).
Proof.
  intros g. split_and!.
  - apply (proj1 (is_valid_move_rejections g _)). right; left. reflexivity.
  - apply (proj1 (is_valid_move_rejections g _)). do 3 right; left.
    exists (Unit.mk Defender AI 9). split; [reflexivity|discriminate].
  - apply (proj1 (is_valid_move_rejections g _)). do 4 right. split.
    + discriminate.
    + unfold one_step_apart; simpl. lia.
Defined.

(** X4: for a unit of the player to move, the request whose destination is
    its own cell is always a legal SelfDestruct, and a request aimed at an
    adjacent cell holding a unit of the other player is always a legal
    Attack, whatever the types, the healths and the engagement of the
    units. *)
Theorem self_destruct_and_attack_legal (g : Game.t) (src : Coord.t) (u : Unit.t) :
  Game.get g src = Some u →
  Unit.player u = Game.next_player g →
  Game.is_valid_move g (CoordPair.mk src src) = (true, Some SelfDestruct)
  ∧ ∀ dst v,
      one_step_apart (CoordPair.mk src dst) →
      Game.get g dst = Some v →
      Unit.player v ≠ Game.next_player g →
      Game.is_valid_move g (CoordPair.mk src dst) = (true, Some Attack).
Proof.
  intros Hu Hp. pose proof (get_Some_valid _ _ _ Hu) as Hs. split.
  - unfold Game.is_valid_move; simpl. rewrite Hs, Hu; simpl.
    rewrite bool_decide_eq_false_2 by (by intros H; apply H).
    unfold CoordPair.are_coords_equal; simpl.
    by rewrite (proj2 (Coord_equals_spec src src)).
  - intros dst v Hadj Hv Hpv.
    apply is_adjacent_spec in Hadj as Hadj'.
    assert (Hne : CoordPair.are_coords_equal (CoordPair.mk src dst) = false).
    { apply not_true_is_false. intros He. apply Coord_equals_spec in He.
      by apply is_adjacent_ne in Hadj'. }
    unfold Game.is_valid_move. simpl CoordPair.src. simpl CoordPair.dst.
    rewrite Hs, (get_Some_valid _ _ _ Hv), Hu, Hv, Hne, Hadj'. simpl.
    rewrite bool_decide_eq_false_2 by (by intros H; apply H).
    by rewrite bool_decide_eq_false_2.
Qed.

Lemma self_destruct_and_attack_legal_witness :
  let g := Game.mk [ [Some (Unit.mk Defender AI 9); Some (Unit.mk Attacker Virus 9)]
                   ; [None; Some (Unit.mk Attacker AI 9)] ]
             Attacker 0
             (Options.mk 2 (Some 4) (Some 2) AttackerVsDefender true (Some 100)
                         true None None)
             true true false in
  Game.is_valid_move g (CoordPair.mk (Coord.mk 0 1) (Coord.mk 0 1))
    = (true, Some SelfDestruct)
  ∧ Game.is_valid_move g (CoordPair.mk (Coord.mk 0 1) (Coord.mk 0 0))
    = (true, Some Attack).
Proof.
  intros g.
  destruct (self_destruct_and_attack_legal g (Coord.mk 0 1)
              (Unit.mk Attacker Virus 9) eq_refl eq_refl) as [Hself Hattack].
  split; [exact Hself|].
  apply (Hattack (Coord.mk 0 0) (Unit.mk Defender AI 9)).
  - left; simpl; split; reflexivity.
  - reflexivity.
  - discriminate.
Defined.

(** ** Enumerating units and moves *)

Lemma elem_of_range (k a b : Z) : k ∈ range a b ↔ a <= k < b.
Proof. unfold range. rewrite elem_of_seqZ. lia. Qed.

Lemma elem_of_iter_rectangle (p : CoordPair.t) (c : Coord.t) :
  c ∈ CoordPair.iter_rectangle p ↔
  Coord.row (CoordPair.src p) <= Coord.row c <= Coord.row (CoordPair.dst p)
  ∧ Coord.col (CoordPair.src p) <= Coord.col c <= Coord.col (CoordPair.dst p).
Proof.
  unfold CoordPair.iter_rectangle. rewrite list_elem_of_bind. split.
  - intros (r & Hc & Hr). apply list_elem_of_bind in Hc as (k & Hc & Hk).
    apply list_elem_of_singleton in Hc as ->. simpl.
    apply elem_of_range in Hr, Hk. lia.
  - intros [Hr Hk]. exists (Coord.row c). split.
    + apply list_elem_of_bind. exists (Coord.col c). split.
      * destruct c; simpl. by apply list_elem_of_singleton.
      * apply elem_of_range. lia.
    + apply elem_of_range. lia.
Qed.

Lemma elem_of_board_rectangle (g : Game.t) (c : Coord.t) :
  c ∈ CoordPair.iter_rectangle (CoordPair.from_dim (Options.dim (Game.options g)))
  ↔ Game.is_valid_coord g c = true.
Proof.
  rewrite elem_of_iter_rectangle, is_valid_coord_spec. simpl. lia.
Qed.

Lemma NoDup_iter_rectangle (p : CoordPair.t) : NoDup (CoordPair.iter_rectangle p).
Proof.
  unfold CoordPair.iter_rectangle, range. apply NoDup_bind.
  - intros r1 r2 d _ _ H1 H2.
    apply list_elem_of_bind in H1 as (k1 & H1 & _).
    apply list_elem_of_bind in H2 as (k2 & H2 & _).
    apply list_elem_of_singleton in H1, H2. congruence.
  - intros r _. apply NoDup_bind.
    + intros k1 k2 d _ _ H1 H2. apply list_elem_of_singleton in H1, H2. congruence.
    + intros k _. apply NoDup_singleton.
    + apply NoDup_seqZ.
  - apply NoDup_seqZ.
Qed.

Lemma elem_of_player_units (g : Game.t) (p : Player) (c : Coord.t) (u : Unit.t) :
  (c, u) ∈ Game.player_units g p ↔ Game.get g c = Some u ∧ Unit.player u = p.
Proof.
  unfold Game.player_units. rewrite list_elem_of_bind. split.
  - intros (d & Hin & _). destruct (Game.get g d) as [v|] eqn:Hv.
    + case_bool_decide; [|by apply elem_of_nil in Hin].
      apply list_elem_of_singleton in Hin. by simplify_eq.
    + by apply elem_of_nil in Hin.
  - intros [Hu Hp]. exists c. split.
    + rewrite Hu, bool_decide_eq_true_2 by done. by apply list_elem_of_singleton.
    + apply elem_of_board_rectangle. by eapply get_Some_valid.
Qed.

Lemma elem_of_get_all_units (g : Game.t) (c : Coord.t) (u : Unit.t) :
  (c, u) ∈ Game.get_all_units g ↔ Game.get g c = Some u.
Proof.
  unfold Game.get_all_units. rewrite list_elem_of_bind. split.
  - intros (d & Hin & _). destruct (Game.get g d) as [v|] eqn:Hv.
    + apply list_elem_of_singleton in Hin. by simplify_eq.
    + by apply elem_of_nil in Hin.
  - intros Hu. exists c. split.
    + rewrite Hu. by apply list_elem_of_singleton.
    + apply elem_of_board_rectangle. by eapply get_Some_valid.
Qed.

(** X5: the unit listings are exact: [player_units] yields a pair (c, u)
    exactly when cell [c] holds [u] and [u] belongs to the player asked
    for, [get_all_units] exactly when cell [c] holds [u]; and each listing
    names every cell at most once. *)
Theorem unit_listings_exact (g : Game.t) :
  (∀ p c u, (c, u) ∈ Game.player_units g p
            ↔ Game.get g c = Some u ∧ Unit.player u = p)
  ∧ (∀ c u, (c, u) ∈ Game.get_all_units g ↔ Game.get g c = Some u)
  ∧ (∀ p, NoDup (Game.player_units g p).*1)
  ∧ NoDup (Game.get_all_units g).*1.
Proof.
  split_and!.
  - apply elem_of_player_units.
  - apply elem_of_get_all_units.
  - intros p. unfold Game.player_units. generalize (NoDup_iter_rectangle
      (CoordPair.from_dim (Options.dim (Game.options g)))).
    induction 1 as [|d l Hd Hl IH]; [constructor|].
    rewrite bind_cons, fmap_app. apply NoDup_app. split_and!; [| |done].
    + destruct (Game.get g d); [case_bool_decide|]; simpl;
        try apply NoDup_singleton; apply NoDup_nil_2.
    + intros c Hc Hc'. apply list_elem_of_fmap in Hc' as ([c' u'] & -> & Hin).
      apply list_elem_of_bind in Hin as (d' & Hin & Hd').
      assert (c' = d').
      { destruct (Game.get g d'); [case_bool_decide|];
          try (by apply elem_of_nil in Hin).
        apply list_elem_of_singleton in Hin. by simplify_eq. }
      assert (c' = d).
      { simpl in Hc. destruct (Game.get g d); [case_bool_decide|];
          simpl in Hc; try (by apply elem_of_nil in Hc).
        by apply list_elem_of_singleton in Hc. }
      congruence.
  - unfold Game.get_all_units. generalize (NoDup_iter_rectangle
      (CoordPair.from_dim (Options.dim (Game.options g)))).
    induction 1 as [|d l Hd Hl IH]; [constructor|].
    rewrite bind_cons, fmap_app. apply NoDup_app. split_and!; [| |done].
    + destruct (Game.get g d); simpl;
        try apply NoDup_singleton; apply NoDup_nil_2.
    + intros c Hc Hc'. apply list_elem_of_fmap in Hc' as ([c' u'] & -> & Hin).
      apply list_elem_of_bind in Hin as (d' & Hin & Hd').
      assert (c' = d').
      { destruct (Game.get g d'); try (by apply elem_of_nil in Hin).
        apply list_elem_of_singleton in Hin. by simplify_eq. }
      assert (c' = d).
      { simpl in Hc. destruct (Game.get g d);
          simpl in Hc; try (by apply elem_of_nil in Hc).
        by apply list_elem_of_singleton in Hc. }
      congruence.
Qed.

Lemma self_destruct_legal (g : Game.t) (src : Coord.t) (u : Unit.t) :
  Game.get g src = Some u →
  Unit.player u = Game.next_player g →
  Game.is_valid_move g (CoordPair.mk src src) = (true, Some SelfDestruct).
Proof.
  intros Hu Hp. pose proof (get_Some_valid _ _ _ Hu) as Hs.
  unfold Game.is_valid_move; simpl. rewrite Hs, Hu; simpl.
  rewrite bool_decide_eq_false_2 by (by intros H; apply H).
  unfold CoordPair.are_coords_equal; simpl.
  by rewrite (proj2 (Coord_equals_spec src src)).
Qed.

Lemma elem_of_move_candidates (g : Game.t) (mv : CoordPair.t) (action : ActionType) :
  (mv, action) ∈ Game.move_candidates g
  ↔ Game.is_valid_move g mv = (true, Some action).
Proof.
  unfold Game.move_candidates. rewrite list_elem_of_bind. split.
  - intros ([src u] & Hin & Hunit). apply elem_of_player_units in Hunit as [Hu Hp].
    apply elem_of_app in Hin as [Hin|Hin].
    + apply list_elem_of_bind in Hin as (dst & Hin & _).
      destruct (Game.is_valid_move g (CoordPair.mk src dst)) as [[] [a|]] eqn:Hv;
        try (by apply elem_of_nil in Hin).
      apply list_elem_of_singleton in Hin. by simplify_eq.
    + apply list_elem_of_singleton in Hin. simplify_eq.
      by apply (self_destruct_legal g src u).
  - intros Hvalid.
    destruct (is_valid_move_inv _ _ _ Hvalid) as (u & Hu & Hp & _ & _ & Hact).
    exists (CoordPair.src mv, u). split; [|by apply elem_of_player_units].
    apply elem_of_app. destruct mv as [src dst]; cbn [CoordPair.src CoordPair.dst] in *.
    destruct (decide (action = SelfDestruct)) as [->|Hns].
    + right. apply list_elem_of_singleton. by rewrite Hact.
    + left. apply list_elem_of_bind. exists dst. split.
      * rewrite Hvalid. by apply list_elem_of_singleton.
      * apply (proj2 (elem_of_iter_adjacent _ _)), (proj1 (is_adjacent_spec _)).
        by destruct action; try done; destruct Hact.
Qed.

(** X6: move generation is sound and complete: a pair of a move and an
    action type is among the candidates of a state exactly when
    [is_valid_move] accepts that move with that action type. *)
Theorem move_candidates_exact (g : Game.t) (mv : CoordPair.t) (action : ActionType) :
  (mv, action) ∈ Game.move_candidates g
  ↔ Game.is_valid_move g mv = (true, Some action).
Proof. apply elem_of_move_candidates. Qed.

(** X7: every unit of the player to move contributes its SelfDestruct to
    the candidates, so the player to move has no candidate at all exactly
    when it has no unit on the board. *)
Theorem self_destruct_always_candidate (g : Game.t) :
  (∀ c u, Game.get g c = Some u → Unit.player u = Game.next_player g →
          (CoordPair.mk c c, SelfDestruct) ∈ Game.move_candidates g)
  ∧ (Game.move_candidates g = []
     ↔ ∀ c u, Game.get g c = Some u → Unit.player u ≠ Game.next_player g).
Proof.
  split.
  - intros c u Hu Hp. apply elem_of_move_candidates.
    by apply (self_destruct_legal g c u).
  - split.
    + intros Hnil c u Hu Hp.
      assert (Hin : (CoordPair.mk c c, SelfDestruct) ∈ Game.move_candidates g).
      { apply elem_of_move_candidates.
        by apply (self_destruct_legal g c u). }
      rewrite Hnil in Hin. by apply elem_of_nil in Hin.
    + intros Hnone. destruct (Game.move_candidates g) as [|[mv a] l] eqn:Hl; [done|].
      assert (Hin : (mv, a) ∈ Game.move_candidates g) by (rewrite Hl; left).
      apply elem_of_move_candidates, is_valid_move_inv in Hin
        as (u & Hu & Hp & _).
      by destruct (Hnone _ _ Hu).
Qed.

(** X8: expanding a state never raises: every child that
    [get_child_states] yields was built without an exception, by applying
    a move that [is_valid_move] accepts to a copy of the state, and the
    child keeps the options of the state. *)
Theorem get_child_states_never_raise (g : Game.t) :
  Forall
    (λ entry,
       ∃ child action,
         entry.2 = Ok child
         ∧ Game.is_valid_move g entry.1 = (true, Some action)
         ∧ Game.do_move_action (Game.clone g) entry.1 action = Ok child
         ∧ Game.options child = Game.options g)
    (Game.get_child_states g).
Proof.
  unfold Game.get_child_states. apply Forall_fmap, Forall_forall.
  intros [mv action] Hin. simpl.
  apply elem_of_move_candidates in Hin as Hvalid.
  assert (Hvalid' : Game.is_valid_move (Game.clone g) mv = (true, Some action))
    by exact Hvalid.
  destruct (is_valid_move_inv _ _ _ Hvalid') as (u & Hu & _ & _ & _ & Hact).
  assert (∃ child, Game.do_move_action (Game.clone g) mv action = Ok child)
    as [child Hchild].
  { destruct action; simpl.
    - unfold Game.perform_self_distruct. set (g1 := foldl _ _ _).
      assert (H1 : Game.get g1 (CoordPair.src mv) = Some u).
      { apply (self_destruct_loop_inv
                 (λ g0, Game.get g0 (CoordPair.src mv) = Some u)); [|done].
        intros g0 d Hd H0. by rewrite mod_health_get_ne. }
      rewrite H1. eauto.
    - eauto.
    - destruct Hact as (_ & v & Hv & _). unfold Game.perform_fight.
      rewrite Hu, Hv. eauto.
    - destruct Hact as (_ & v & Hv & _). unfold Game.perform_repair.
      rewrite Hu, Hv. eauto. }
  exists child, action. split_and!; try done.
  by apply do_move_action_options in Hchild.
Qed.

(** ** States reachable by playing *)

Lemma is_valid_move_shape (g : Game.t) (coords : CoordPair.t) :
  Game.is_valid_move g coords = (false, None)
  ∨ ∃ action, Game.is_valid_move g coords = (true, Some action).
Proof.
  unfold Game.is_valid_move.
  repeat first [ case_bool_decide | case_match ]; eauto.
Qed.

Lemma self_destruct_loop_wf src l g :
  board_wf g →
  board_wf (foldl (λ g dst, if Coord.equals src dst then g
                            else Game.mod_health g dst (-2)) g l).
Proof.
  intros Hwf. apply (self_destruct_loop_inv board_wf); [|done].
  intros g0 d _ H0. by apply board_wf_mod_health.
Qed.

Lemma do_move_action_wf g coords action g' :
  board_wf g → Game.do_move_action g coords action = Ok g' → board_wf g'.
Proof.
  intros Hwf. destruct action; simpl.
  - unfold Game.perform_self_distruct.
    pose proof (self_destruct_loop_wf (CoordPair.src coords)
                  (Coord.iter_range (CoordPair.src coords) 1) g Hwf) as H1.
    destruct (Game.get _ _); [|done]. intros [= <-].
    by apply board_wf_mod_health.
  - intros [= <-]. by do 2 apply board_wf_set.
  - unfold Game.perform_fight.
    destruct (Game.get g _); [|done]. destruct (Game.get g _); [|done].
    intros [= <-]. by do 2 apply board_wf_mod_health.
  - unfold Game.perform_repair.
    destruct (Game.get g _); [|done]. destruct (Game.get g _); [|done].
    intros [= <-]. by apply board_wf_mod_health.
Qed.

Lemma board_wf_next_turn g : board_wf g → board_wf (Game.next_turn g).
Proof. done. Qed.

Lemma perform_move_inv g coords g' outcome :
  Game.perform_move g coords = Ok (g', outcome) →
  (g' = g ∧ outcome = (false, None, "invalid move"%string)
   ∧ Game.is_valid_move g coords = (false, None))
  ∨ (∃ action, Game.is_valid_move g coords = (true, Some action)
               ∧ Game.do_move_action g coords action = Ok g'
               ∧ outcome = (true, Some action, EmptyString)).
Proof.
  unfold Game.perform_move.
  destruct (is_valid_move_shape g coords) as [->|[action ->]].
  - intros [= <- <-]. by left.
  - destruct (Game.do_move_action g coords action) as [g1|e|] eqn:Hrun;
      simpl; try done.
    intros [= <- <-]. right. by exists action.
Qed.

Lemma board_wf_initial (o : Options.t) : board_wf (Game.__post_init__ o).
Proof.
  unfold Game.__post_init__. repeat apply board_wf_set.
  unfold board_wf, range; simpl. rewrite length_fmap, length_seqZ.
  split; [f_equal; lia|].
  apply Forall_fmap, Forall_forall. intros r _; simpl.
  rewrite length_fmap, length_seqZ. f_equal; lia.
Qed.

Lemma units_ok_initial (o : Options.t) : units_ok (Game.__post_init__ o).
Proof.
  unfold Game.__post_init__.
  repeat (apply units_ok_set; [|simpl; lia]).
  unfold units_ok; simpl.
  apply Forall_fmap, Forall_forall. intros r _; simpl.
  apply Forall_fmap, Forall_forall. by intros k _.
Qed.

Lemma options_initial (o : Options.t) : Game.options (Game.__post_init__ o) = o.
Proof. unfold Game.__post_init__. by rewrite !options_set. Qed.

(** X9: every state reached from a freshly constructed game, of any
    dimension, by any sequence of requested moves is well formed: no
    request raises, the board keeps its [dim] rows of [dim] cells, every
    unit on it has health 1..9, and the options are the ones the game was
    built with. *)
Theorem reachable_states_well_formed (o : Options.t) (moves : list CoordPair.t) :
  ∃ g, play (Game.__post_init__ o) moves = Ok g
       ∧ board_wf g ∧ units_ok g ∧ Game.options g = o.
Proof.
  pose proof (board_wf_initial o) as Hwf.
  pose proof (units_ok_initial o) as Hok.
  pose proof (options_initial o) as Ho.
  revert Hwf Hok Ho. generalize (Game.__post_init__ o).
  induction moves as [|mv moves IH]; intros g Hwf Hok Ho; simpl; [eauto|].
  destruct (perform_move_units_ok g mv Hok) as (g' & [[ok a] msg] & Hrun & Hok').
  rewrite Hrun. simpl.
  assert (board_wf g' ∧ Game.options g' = o) as [Hwf' Ho'].
  { apply perform_move_inv in Hrun as [(-> & _)|(action & _ & Hrun & _)]; [done|].
    split; [by eapply do_move_action_wf|].
    by rewrite (do_move_action_options _ _ _ _ Hrun). }
  apply IH; by destruct ok.
Qed.

(** ** The has-AI flags and the board *)

Lemma command_unit_at_remaining g g' c u h p :
  Game.get g c = Some u → Game.get g' c = remaining u h → h > 0 →
  command_unit_at g' p c ↔ command_unit_at g p c.
Proof.
  intros Hu Hu' Hh. unfold command_unit_at, remaining in *.
  rewrite Hu, Hu', bool_decide_eq_true_2 by done.
  split; intros (v & [= <-] & ? & ?); eauto.
Qed.

Lemma mod_health_flag g c delta u p :
  Game.get g c = Some u →
  has_ai_flag (Game.mod_health g c delta) p
  = if negb (Unit.is_alive (Unit.mod_health u delta))
       && bool_decide (Unit.type u = AI) && bool_decide (Unit.player u = p)
    then false else has_ai_flag g p.
Proof.
  intros Hu. rewrite (mod_health_eq _ _ _ _ Hu). cbn zeta.
  destruct p, (Unit.player u); simpl; by rewrite ?andb_false_r, ?andb_true_r.
Qed.

Lemma mod_health_flags_consistent g c delta :
  flags_consistent g → flags_consistent (Game.mod_health g c delta).
Proof.
  intros Hcons. destruct (Game.get g c) as [u|] eqn:Hu;
    [|by rewrite mod_health_None].
  pose proof (mod_health_get_eq _ _ delta _ Hu) as Hc.
  pose proof (λ x (Hx : c ≠ x), mod_health_get_ne g c delta x Hx) as Hother.
  assert (Hat : ∀ p x, x ≠ c →
            command_unit_at (Game.mod_health g c delta) p x ↔ command_unit_at g p x).
  { intros p x Hx. unfold command_unit_at. by rewrite Hother. }
  destruct (Unit.is_alive (Unit.mod_health u delta)) eqn:Halive.
  - assert (Hsame : ∀ p x,
              command_unit_at (Game.mod_health g c delta) p x ↔ command_unit_at g p x).
    { intros p x. destruct (decide (x = c)) as [->|Hx]; [|by apply Hat].
      eapply command_unit_at_remaining; [done..|].
      by apply bool_decide_eq_true in Halive. }
    intros p. destruct (Hcons p) as [Hflag Huniq].
    rewrite (mod_health_flag_alive _ _ _ _ _ Hu Halive). split.
    + rewrite Hflag. by setoid_rewrite Hsame.
    + intros x y Hx Hy. apply Huniq; by apply Hsame.
  - assert (Hgone : ∀ p, ¬ command_unit_at (Game.mod_health g c delta) p c).
    { intros p (v & Hv & _). rewrite Hc, remaining_mod_health, Halive in Hv. done. }
    intros p. destruct (Hcons p) as [Hflag Huniq]. split.
    + rewrite (mod_health_flag _ _ _ _ _ Hu), Halive. simpl.
      destruct (decide (Unit.type u = AI ∧ Unit.player u = p)) as [[Ht Hp]|Hnot].
      * assert (Hhere : command_unit_at g p c) by (by exists u).
        rewrite !bool_decide_eq_true_2 by done. simpl. split; [done|].
        intros (x & Hx). exfalso.
        destruct (decide (x = c)) as [->|Hxc]; [by eapply Hgone|].
        apply Hxc. apply (Huniq x c); [|done]. by apply (Hat p x Hxc).
      * assert (Hb : bool_decide (Unit.type u = AI)
                     && bool_decide (Unit.player u = p) = false).
        { repeat case_bool_decide; simpl; try done. by destruct Hnot. }
        rewrite Hb, Hflag.
        split; intros (x & Hx).
        -- exists x. apply Hat; [|done]. intros ->. apply Hnot.
           destruct Hx as (v & Hv & ? & ?). rewrite Hu in Hv. by simplify_eq.
        -- exists x. apply Hat; [|done]. intros ->. by eapply Hgone.
    + intros x y Hx Hy.
      assert (x ≠ c) by (intros ->; by eapply Hgone).
      assert (y ≠ c) by (intros ->; by eapply Hgone).
      apply Huniq; by apply Hat.
Qed.

Lemma do_move_action_total g coords action :
  Game.is_valid_move g coords = (true, Some action) →
  ∃ g', Game.do_move_action g coords action = Ok g'.
Proof.
  intros Hvalid.
  destruct (is_valid_move_inv _ _ _ Hvalid) as (u & Hu & _ & _ & _ & Hact).
  destruct action; simpl.
  - unfold Game.perform_self_distruct. set (g1 := foldl _ _ _).
    assert (H1 : Game.get g1 (CoordPair.src coords) = Some u).
    { apply (self_destruct_loop_inv
               (λ g0, Game.get g0 (CoordPair.src coords) = Some u)); [|done].
      intros g0 d Hd H0. by rewrite mod_health_get_ne. }
    rewrite H1. eauto.
  - eauto.
  - destruct Hact as (_ & v & Hv & _). unfold Game.perform_fight.
    rewrite Hu, Hv. eauto.
  - destruct Hact as (_ & v & Hv & _). unfold Game.perform_repair.
    rewrite Hu, Hv. eauto.
Qed.

Lemma has_ai_flag_set g c x p : has_ai_flag (Game.set g c x) p = has_ai_flag g p.
Proof. unfold Game.set. destruct (Game.is_valid_coord g c); by destruct p. Qed.

Lemma move_flags_consistent g coords :
  board_wf g → Game.is_valid_move g coords = (true, Some Move) →
  flags_consistent g →
  flags_consistent
    (Game.set (Game.set g (CoordPair.dst coords) (Game.get g (CoordPair.src coords)))
              (CoordPair.src coords) None).
Proof.
  intros Hwf Hvalid Hcons.
  destruct (is_valid_move_inv _ _ _ Hvalid) as (u & Hu & _ & _ & Hd & Hadj & Hempty).
  apply is_adjacent_ne in Hadj.
  set (src := CoordPair.src coords) in *. set (dst := CoordPair.dst coords) in *.
  set (g' := Game.set (Game.set g dst (Game.get g src)) src None).
  set (swap := λ x : Coord.t, if decide (x = src) then dst
                              else if decide (x = dst) then src else x).
  assert (Hswap : ∀ x, swap (swap x) = x).
  { intros x. unfold swap. repeat case_decide; congruence. }
  assert (Hget : ∀ x, Game.get g' x = Game.get g (swap x)).
  { intros x. unfold g', swap. destruct (decide (x = src)) as [->|Hxs].
    - rewrite Hempty. eapply get_set_eq. rewrite get_set_ne by done. exact Hu.
    - rewrite get_set_ne by done. destruct (decide (x = dst)) as [->|Hxd].
      + by apply get_set_eq_wf.
      + by rewrite get_set_ne. }
  assert (Hat : ∀ p x, command_unit_at g' p x ↔ command_unit_at g p (swap x)).
  { intros p x. unfold command_unit_at. by rewrite Hget. }
  intros p. destruct (Hcons p) as [Hflag Huniq]. split.
  - unfold g'. rewrite !has_ai_flag_set, Hflag. split; intros (x & Hx).
    + exists (swap x). apply Hat. by rewrite Hswap.
    + exists (swap x). by apply Hat.
  - intros x y Hx Hy. apply Hat in Hx, Hy.
    rewrite <- (Hswap x), <- (Hswap y). f_equal. by apply Huniq.
Qed.

Lemma do_move_action_flags_consistent g coords action g' :
  board_wf g → flags_consistent g →
  Game.is_valid_move g coords = (true, Some action) →
  Game.do_move_action g coords action = Ok g' →
  flags_consistent g'.
Proof.
  intros Hwf Hcons Hvalid. destruct action; simpl.
  - unfold Game.perform_self_distruct. set (g1 := foldl _ g _).
    assert (H1 : flags_consistent g1).
    { apply (self_destruct_loop_inv flags_consistent); [|done].
      intros g0 d _ H0. by apply mod_health_flags_consistent. }
    destruct (Game.get g1 _); [|done]. intros [= <-].
    by apply mod_health_flags_consistent.
  - intros [= <-]. by apply move_flags_consistent.
  - unfold Game.perform_fight.
    destruct (Game.get g _); [|done]. destruct (Game.get g _); [|done].
    intros [= <-]. by do 2 apply mod_health_flags_consistent.
  - unfold Game.perform_repair.
    destruct (Game.get g _); [|done]. destruct (Game.get g _); [|done].
    intros [= <-]. by apply mod_health_flags_consistent.
Qed.

Lemma flags_consistent_next_turn g :
  flags_consistent g → flags_consistent (Game.next_turn g).
Proof. intros H. exact H. Qed.


Lemma get_set_wf g c x d :
  board_wf g → Game.is_valid_coord g c = true →
  Game.get (Game.set g c x) d = if decide (c = d) then x else Game.get g d.
Proof.
  intros Hwf Hc. case_decide as Hcd.
  - subst d. by apply get_set_eq_wf.
  - by apply get_set_ne.
Qed.

(** Where the units of a fresh game stand, on a board of dimension 3 or
    more: the placements of [__post_init__], the later ones first. *)
Lemma get_initial (o : Options.t) (d : Coord.t) :
  3 <= Options.dim o →
  let md := Options.dim o - 1 in
  Game.get (Game.__post_init__ o) d
  = if decide (Coord.mk (md - 1) (md - 1) = d) then Some (Unit.mk Attacker Firewall 9)
    else if decide (Coord.mk md (md - 2) = d) then Some (Unit.mk Attacker Program 9)
    else if decide (Coord.mk (md - 2) md = d) then Some (Unit.mk Attacker Program 9)
    else if decide (Coord.mk md (md - 1) = d) then Some (Unit.mk Attacker Virus 9)
    else if decide (Coord.mk (md - 1) md = d) then Some (Unit.mk Attacker Virus 9)
    else if decide (Coord.mk md md = d) then Some (Unit.mk Attacker AI 9)
    else if decide (Coord.mk 1 1 = d) then Some (Unit.mk Defender Program 9)
    else if decide (Coord.mk 0 2 = d) then Some (Unit.mk Defender Firewall 9)
    else if decide (Coord.mk 2 0 = d) then Some (Unit.mk Defender Firewall 9)
    else if decide (Coord.mk 0 1 = d) then Some (Unit.mk Defender Tech 9)
    else if decide (Coord.mk 1 0 = d) then Some (Unit.mk Defender Tech 9)
    else if decide (Coord.mk 0 0 = d) then Some (Unit.mk Defender AI 9)
    else None.
Proof.
  intros Hdim md. unfold Game.__post_init__. fold md.
  set (g0 := Game.mk _ Attacker 0 o true true false).
  assert (Hwf0 : board_wf g0).
  { unfold board_wf, g0, range; simpl. rewrite length_fmap, length_seqZ.
    split; [f_equal; lia|].
    apply Forall_fmap, Forall_forall. intros r _; simpl.
    rewrite length_fmap, length_seqZ. f_equal; lia. }
  assert (Hget0 : Game.get g0 d = None).
  { unfold Game.get, Game.cell. destruct (Game.is_valid_coord g0 d); [|done].
    unfold g0.
    simpl. rewrite list_lookup_fmap. destruct (range 0 _ !! _); [|done]. simpl.
    rewrite list_lookup_fmap. by destruct (range 0 _ !! _). }
  repeat (rewrite get_set_wf;
          [| by repeat apply board_wf_set
           | by rewrite ?is_valid_coord_set; apply is_valid_coord_spec;
                simpl; unfold md; lia ]).
  by rewrite Hget0.
Qed.

Lemma command_unit_initial (o : Options.t) (p : Player) (c : Coord.t) :
  3 <= Options.dim o →
  command_unit_at (Game.__post_init__ o) p c
  ↔ c = match p with
        | Defender => Coord.mk 0 0
        | Attacker => Coord.mk (Options.dim o - 1) (Options.dim o - 1)
        end.
Proof.
  intros Hdim. unfold command_unit_at. rewrite (get_initial o c Hdim). cbn zeta.
  split.
  - intros (u & Hu & Ht & Hp).
    repeat case_decide; by simplify_eq/=.
  - intros ->. destruct p.
    + repeat (rewrite decide_False by (intros [=]; lia)).
      rewrite decide_True by done. by eexists.
    + repeat (rewrite decide_False by (intros [=]; lia)).
      rewrite decide_True by done. by eexists.
Qed.

Lemma flags_consistent_initial (o : Options.t) :
  3 <= Options.dim o → flags_consistent (Game.__post_init__ o).
Proof.
  intros Hdim p. split.
  - assert (Hflag : has_ai_flag (Game.__post_init__ o) p = true).
    { unfold Game.__post_init__. rewrite !has_ai_flag_set. by destruct p. }
    rewrite Hflag. split; [|done]. intros _. eexists.
    by apply (command_unit_initial o p _ Hdim).
  - intros c c' Hc Hc'.
    apply (command_unit_initial o p _ Hdim) in Hc, Hc'. congruence.
Qed.



(** X11: in a state whose flags agree with the board and whose turn limit
    has not been reached, the winner can be read off the board: nobody
    while both Command units stand, the Attacker when only its own Command
    unit stands, the Defender whenever the Attacker's Command unit is
    gone. *)
Theorem has_winner_reads_board (g : Game.t) :
  flags_consistent g → ¬ turn_limit_reached g →
  (Game.has_winner g = None
   ↔ (∃ c, command_unit_at g Attacker c) ∧ (∃ c, command_unit_at g Defender c))
  ∧ (Game.has_winner g = Some Attacker
     ↔ (∃ c, command_unit_at g Attacker c) ∧ ¬ (∃ c, command_unit_at g Defender c))
  ∧ (Game.has_winner g = Some Defender ↔ ¬ (∃ c, command_unit_at g Attacker c)).
Proof.
  intros Hcons Hlimit.
  destruct (Hcons Attacker) as [HA _], (Hcons Defender) as [HD _].
  simpl in HA, HD. rewrite <- HA, <- HD.
  unfold turn_limit_reached, Game.has_winner in *.
  destruct (Options.max_turns (Game.options g)) as [limit|].
  - rewrite bool_decide_eq_false_2 by done.
    destruct (Game._attacker_has_ai g), (Game._defender_has_ai g);
      split_and!; split; try done; intuition congruence.
  - destruct (Game._attacker_has_ai g), (Game._defender_has_ai g);
      split_and!; split; try done; intuition congruence.
Qed.

Lemma has_winner_reads_board_witness :
  let g := Game.__post_init__ Options.default in
  Game.has_winner g = None
  ↔ (∃ c, command_unit_at g Attacker c) ∧ (∃ c, command_unit_at g Defender c).
Proof.
  intros g.
  refine (proj1 (has_winner_reads_board g _ _)).
  - apply flags_consistent_initial. by vm_compute.
  - unfold turn_limit_reached, g. rewrite options_initial.
    intros H. vm_compute in H. by apply H.
Defined.

Lemma mod_health_flag_mono g c delta p :
  has_ai_flag (Game.mod_health g c delta) p = true → has_ai_flag g p = true.
Proof.
  destruct (Game.get g c) as [u|] eqn:Hu; [|by rewrite mod_health_None].
  rewrite (mod_health_flag _ _ _ _ _ Hu). by destruct (_ && _ && _).
Qed.

Lemma do_move_action_flag_mono g coords action g' p :
  Game.do_move_action g coords action = Ok g' →
  has_ai_flag g' p = true → has_ai_flag g p = true.
Proof.
  destruct action; simpl.
  - unfold Game.perform_self_distruct. set (g1 := foldl _ g _).
    assert (H1 : has_ai_flag g1 p = true → has_ai_flag g p = true).
    { apply (self_destruct_loop_inv
               (λ g0, has_ai_flag g0 p = true → has_ai_flag g p = true)); [|done].
      intros g0 d _ H0 H. apply H0. by eapply mod_health_flag_mono. }
    destruct (Game.get g1 _); [|done]. intros [= <-] H.
    apply H1. by eapply mod_health_flag_mono.
  - intros [= <-]. by rewrite !has_ai_flag_set.
  - unfold Game.perform_fight.
    destruct (Game.get g _); [|done]. destruct (Game.get g _); [|done].
    intros [= <-] H. by do 2 apply mod_health_flag_mono in H.
  - unfold Game.perform_repair.
    destruct (Game.get g _); [|done]. destruct (Game.get g _); [|done].
    intros [= <-] H. by apply mod_health_flag_mono in H.
Qed.

Lemma play_flag_mono g moves g' p :
  play g moves = Ok g' → has_ai_flag g' p = true → has_ai_flag g p = true.
Proof.
  revert g. induction moves as [|mv moves IH]; intros g; simpl.
  { by intros [= <-]. }
  destruct (Game.perform_move g mv) as [[g1 [[ok a] msg]]|e|] eqn:Hrun;
    simpl; try done.
  intros Hplay Hflag. apply IH in Hplay; [|done].
  assert (Hg1 : has_ai_flag g1 p = true) by (by destruct ok).
  apply perform_move_inv in Hrun as [(-> & _)|(action & _ & Hrun & _)]; [done|].
  by eapply do_move_action_flag_mono.
Qed.

(** X12: what a health modification does to the has-AI flags.  When the
    unit hit is a Command unit and its health would drop to 0 or below, its
    cell is emptied and its owner's flag is cleared, the other flag being
    left alone; in every other case both flags are left alone.  A flag that
    has been cleared is never set again, whatever is played afterwards. *)
Theorem command_unit_death (g : Game.t) (c : Coord.t) (delta : Z) (u : Unit.t) :
  Game.get g c = Some u →
  (Unit.type u = AI → Unit.health u + delta <= 0 →
   Game.get (Game.mod_health g c delta) c = None
   ∧ has_ai_flag (Game.mod_health g c delta) (Unit.player u) = false
   ∧ has_ai_flag (Game.mod_health g c delta) (Player_next (Unit.player u))
     = has_ai_flag g (Player_next (Unit.player u)))
  ∧ (Unit.type u ≠ AI ∨ 0 < Unit.health u + delta →
     ∀ p, has_ai_flag (Game.mod_health g c delta) p = has_ai_flag g p)
  ∧ (∀ moves g' p, play g moves = Ok g' →
                   has_ai_flag g p = false → has_ai_flag g' p = false).
Proof.
  intros Hu.
  assert (Halive : Unit.is_alive (Unit.mod_health u delta)
                   = bool_decide (0 < Unit.health u + delta)).
  { unfold Unit.is_alive, Unit.mod_health; simpl.
    apply bool_decide_ext. repeat case_bool_decide; lia. }
  split_and!.
  - intros Ht Hdead.
    rewrite (mod_health_get_eq _ _ _ _ Hu), remaining_mod_health.
    rewrite !(mod_health_flag _ _ _ _ _ Hu), Halive.
    rewrite bool_decide_eq_false_2 by lia. simpl.
    rewrite (bool_decide_eq_true_2 _ Ht). simpl.
    rewrite bool_decide_eq_true_2 by done.
    rewrite bool_decide_eq_false_2 by (by destruct (Unit.player u)).
    done.
  - intros Hcase p. rewrite (mod_health_flag _ _ _ _ _ Hu), Halive.
    destruct Hcase as [Ht|Hpos].
    + rewrite (bool_decide_eq_false_2 (Unit.type u = AI)) by done.
      by rewrite andb_false_r.
    + by rewrite bool_decide_eq_true_2.
  - intros moves g' p Hplay Hoff.
    destruct (has_ai_flag g' p) eqn:Hon; [|done].
    apply (play_flag_mono _ _ _ _ Hplay) in Hon. congruence.
Qed.

(** The Attacker's Virus hits the Defender's Command unit for 9. *)
Lemma command_unit_death_witness :
  let g := Game.mk [ [Some (Unit.mk Defender AI 9); Some (Unit.mk Attacker Virus 9)]
                   ; [None; Some (Unit.mk Attacker AI 9)] ]
             Attacker 0
             (Options.mk 2 (Some 4) (Some 2) AttackerVsDefender true (Some 100)
                         true None None)
             true true false in
  Game.get (Game.mod_health g (Coord.mk 0 0) (-9)) (Coord.mk 0 0) = None
  ∧ has_ai_flag (Game.mod_health g (Coord.mk 0 0) (-9)) Defender = false
  ∧ has_ai_flag (Game.mod_health g (Coord.mk 0 0) (-9)) Attacker = true.
Proof.
  intros g.
  apply (proj1 (command_unit_death g (Coord.mk 0 0) (-9) (Unit.mk Defender AI 9)
                  eq_refl)).
  - reflexivity.
  - simpl. lia.
Defined.

(** ** Turn bookkeeping *)

Lemma turn_state_set g c x : turn_state (Game.set g c x) = turn_state g.
Proof. unfold Game.set. by destruct (Game.is_valid_coord g c). Qed.

Lemma turn_state_mod_health g c delta :
  turn_state (Game.mod_health g c delta) = turn_state g.
Proof.
  destruct (Game.get g c) as [u|] eqn:Hu; [|by rewrite mod_health_None].
  by rewrite (mod_health_eq _ _ _ _ Hu).
Qed.

Lemma turn_state_do_move_action g coords action g' :
  Game.do_move_action g coords action = Ok g' → turn_state g' = turn_state g.
Proof.
  destruct action; simpl.
  - unfold Game.perform_self_distruct. set (g1 := foldl _ g _).
    assert (H1 : turn_state g1 = turn_state g).
    { apply (self_destruct_loop_inv (λ g0, turn_state g0 = turn_state g)); [|done].
      intros g0 d _ H0. by rewrite turn_state_mod_health. }
    destruct (Game.get g1 _); [|done]. intros [= <-].
    by rewrite turn_state_mod_health.
  - intros [= <-]. by rewrite !turn_state_set.
  - unfold Game.perform_fight.
    destruct (Game.get g _); [|done]. destruct (Game.get g _); [|done].
    intros [= <-]. by rewrite !turn_state_mod_health.
  - unfold Game.perform_repair.
    destruct (Game.get g _); [|done]. destruct (Game.get g _); [|done].
    intros [= <-]. by rewrite !turn_state_mod_health.
Qed.

(** X13: validating and applying a request never advances the turn: after
    [perform_move], accepted or not, the player to move, the turn counter,
    the options and the logging switch are what they were; a rejected
    request leaves the whole state untouched and reports "invalid move".
    Only [next_turn] moves on: it adds one to the counter and hands the
    turn to the other player, so two of them give the turn back. *)
Theorem perform_move_keeps_turn (g : Game.t) (coords : CoordPair.t)
    (g' : Game.t) (outcome : bool * option ActionType * string) :
  Game.perform_move g coords = Ok (g', outcome) →
  turn_state g' = turn_state g
  ∧ (outcome.1.1 = false → g' = g ∧ outcome = (false, None, "invalid move"%string))
  ∧ Game.turns_played (Game.next_turn g') = Game.turns_played g + 1
  ∧ Game.next_player (Game.next_turn g') ≠ Game.next_player g
  ∧ Game.next_player (Game.next_turn (Game.next_turn g')) = Game.next_player g.
Proof.
  intros Hrun.
  assert (Hturn : turn_state g' = turn_state g).
  { apply perform_move_inv in Hrun as [(-> & _)|(action & _ & Hrun & _)]; [done|].
    by eapply turn_state_do_move_action. }
  split; [exact Hturn|].
  injection Hturn as Hp Ht _ _.
  split_and!.
  - intros Hfail.
    apply perform_move_inv in Hrun as [(-> & -> & _)|(action & _ & _ & ->)]; done.
  - simpl. lia.
  - simpl. rewrite Hp. by destruct (Game.next_player g).
  - simpl. rewrite Hp. by destruct (Game.next_player g).
Qed.

Lemma perform_move_keeps_turn_witness :
  ∃ g', Game.perform_move (Game.__post_init__ Options.default)
          (CoordPair.mk (Coord.mk 2 4) (Coord.mk 1 4))
        = Ok (g', (true, Some Move, EmptyString))
        ∧ Game.next_player g' = Attacker ∧ Game.turns_played g' = 0.
Proof.
  assert (Hrun : ∃ g', Game.perform_move (Game.__post_init__ Options.default)
                         (CoordPair.mk (Coord.mk 2 4) (Coord.mk 1 4))
                       = Ok (g', (true, Some Move, EmptyString))).
  { vm_compute. eexists. reflexivity. }
  destruct Hrun as [g' Hrun]. exists g'. split; [exact Hrun|].
  pose proof (proj1 (perform_move_keeps_turn _ _ _ _ Hrun)) as Hturn.
  split.
  - transitivity (Game.next_player (Game.__post_init__ Options.default));
      [exact (f_equal (λ t, t.1.1.1) Hturn)|vm_compute; reflexivity].
  - transitivity (Game.turns_played (Game.__post_init__ Options.default));
      [exact (f_equal (λ t, t.1.1.2) Hturn)|vm_compute; reflexivity].
Defined.

(** * Further properties of the searches *)

(** ** Expanding a searchable state *)

Lemma searchable_children (o : Options.t) (g : Game.t) :
  searchable o g →
  Forall (λ entry, ∃ child, entry.2 = Ok child
                            ∧ searchable o (Game.next_turn child)
                            ∧ legal_in g entry.1)
         (Game.get_child_states g).
Proof.
  intros (Hwf & Hcons & Ho).
  unfold Game.get_child_states. apply Forall_fmap, Forall_forall.
  intros [mv action] Hin. simpl.
  apply elem_of_move_candidates in Hin as Hvalid.
  assert (Hvalid' : Game.is_valid_move (Game.clone g) mv = (true, Some action))
    by exact Hvalid.
  destruct (do_move_action_total _ _ _ Hvalid') as [child Hchild].
  exists child. split_and!; [done| |by exists action].
  split_and!.
  - apply board_wf_next_turn. eapply do_move_action_wf; [|exact Hchild]. exact Hwf.
  - apply flags_consistent_next_turn.
    eapply do_move_action_flags_consistent; [| |exact Hvalid'|exact Hchild].
    + exact Hwf.
    + exact Hcons.
  - simpl. by rewrite (do_move_action_options _ _ _ _ Hchild).
Qed.

Lemma unfinished_has_children (o : Options.t) (g : Game.t) :
  searchable o g → Game.is_finished g = false → Game.get_child_states g ≠ [].
Proof.
  intros (_ & Hcons & _) Hfin.
  assert (Hflags : ∀ p, has_ai_flag g p = true).
  { unfold Game.is_finished in Hfin. apply bool_decide_eq_false in Hfin.
    apply dec_stable in Hfin. unfold Game.has_winner in Hfin.
    destruct (match Options.max_turns _ with Some _ => _ | None => _ end); [done|].
    intros []; simpl;
      by destruct (Game._attacker_has_ai g), (Game._defender_has_ai g). }
  destruct (proj1 (proj1 (Hcons (Game.next_player g))) (Hflags _))
    as (c & u & Hu & _ & Hp).
  pose proof (proj2 (elem_of_move_candidates g _ _) (self_destruct_legal g c u Hu Hp))
    as Hin.
  unfold Game.get_child_states. intros Hnil.
  apply fmap_nil_inv in Hnil. rewrite Hnil in Hin. by apply elem_of_nil in Hin.
Qed.

(** ** The plain search returns a score and a legal move *)

Section plain_search.

Variable clock : nat → comparison.
Variable self : Game.t.
Variable o : Options.t.
Hypothesis known : known_heuristic (Options.heuristic o).

Lemma search_loop_integer (maximizing : bool) recurse cur
    (Q : CoordPair.t → Prop) children value best st :
  Forall (λ entry, ∃ child, entry.2 = Ok child
                            ∧ searchable o (Game.next_turn child) ∧ Q entry.1)
         children →
  (∀ child st, searchable o child →
               ∃ z m st', recurse child st = Ok ((VInt z, m), st')) →
  (value = (if maximizing then VNegInf else VPosInf) ∧ best = None ∧ children ≠ [])
  ∨ (∃ z m, value = VInt z ∧ best = Some m ∧ Q m) →
  ∃ z m st',
    (if maximizing then Minimax.search_max else Minimax.search_min)
      self recurse cur children value best st = Ok ((VInt z, Some m), st')
    ∧ Q m.
Proof.
  intros Hch Hrec. revert value best st.
  induction Hch as [|[mv rchild] children (child & Hc & Hs & Hq) Hch IH];
    intros value best st Hstart.
  { destruct Hstart as [(_ & _ & ?)|(z & m & -> & -> & Hm)]; [done|].
    exists z, m, st. by destruct maximizing. }
  simpl in Hc. subst rchild.
  destruct (Hrec _ st Hs) as (v & m' & st1 & Hr).
  assert (Hnext : ∀ value' best',
            (∃ z m, value' = VInt z ∧ best' = Some m ∧ Q m) →
            ∃ z m st',
              (if maximizing then Minimax.search_max else Minimax.search_min)
                self recurse cur children value' best'
                (Minimax.count_child self cur st1) = Ok ((VInt z, Some m), st')
              ∧ Q m).
  { intros value' best' H. apply IH. by right. }
  destruct maximizing; simpl; rewrite Hr; simpl.
  - destruct Hstart as [(-> & -> & _)|(z & m & -> & -> & Hm)]; simpl.
    + apply Hnext. eauto.
    + case_bool_decide; apply Hnext; eauto.
  - destruct Hstart as [(-> & -> & _)|(z & m & -> & -> & Hm)]; simpl.
    + apply Hnext. eauto.
    + case_bool_decide; apply Hnext; eauto.
Qed.

Lemma search_integer fuel state cur maxDepth maximizing st :
  searchable o state →
  0 <= maxDepth - (cur - Game.turns_played self) < Z.of_nat fuel →
  ∃ z mv st',
    Minimax.search clock self fuel state cur maxDepth maximizing st
      = Ok ((VInt z, mv), st')
    ∧ match mv with
      | Some m => legal_in state m
      | None => cur - Game.turns_played self = maxDepth
                ∨ clock (Minimax.reads st) = Gt
                ∨ Game.is_finished state = true
      end.
Proof.
  revert state cur maximizing st.
  induction fuel as [|fuel IH]; intros state cur maximizing st Hs Hfuel; [lia|].
  cbn [Minimax.search].
  assert (Hleaf : ∃ z, of_score (Game.calculate_heuristic state) = VInt z).
  { destruct (calculate_heuristic_known state) as [z ->]; [|by eexists].
    destruct Hs as (_ & _ & ->). exact known. }
  destruct Hleaf as [z0 Hz0].
  case_bool_decide as Hdepth; simpl.
  { rewrite Hz0. exists z0, None. eexists. split; [done|by left]. }
  case_bool_decide as Hlate; simpl.
  { rewrite Hz0. exists z0, None. eexists. split; [done|by right; left]. }
  destruct (Game.is_finished state) eqn:Hfin.
  { rewrite Hz0. exists z0, None. eexists. split; [done|by right; right]. }
  pose proof (searchable_children o state Hs) as Hch.
  pose proof (unfinished_has_children o state Hs Hfin) as Hne.
  destruct maximizing.
  - destruct (search_loop_integer true
                (λ child, Minimax.search clock self fuel child (cur + 1) maxDepth false)
                cur (legal_in state) (Game.get_child_states state) VNegInf None
                (Minimax.mkLocals (S (Minimax.reads st)) (Minimax.nodes_explored st)
                   (Minimax.total_depth st) (Minimax.num_non_leaf_nodes st)
                   (Minimax.evaluations_per_depth st)) Hch)
      as (z & m & st' & Hrun & Hm).
    + intros child st0 Hc.
      destruct (IH child (cur + 1) false st0 Hc) as (z & m & st' & Hrun & _); [lia|].
      eauto.
    + left. done.
    + exists z, (Some m), st'. split; [exact Hrun|exact Hm].
  - destruct (search_loop_integer false
                (λ child, Minimax.search clock self fuel child (cur + 1) maxDepth true)
                cur (legal_in state) (Game.get_child_states state) VPosInf None
                (Minimax.mkLocals (S (Minimax.reads st)) (Minimax.nodes_explored st)
                   (Minimax.total_depth st) (Minimax.num_non_leaf_nodes st)
                   (Minimax.evaluations_per_depth st)) Hch)
      as (z & m & st' & Hrun & Hm).
    + intros child st0 Hc.
      destruct (IH child (cur + 1) true st0 Hc) as (z & m & st' & Hrun & _); [lia|].
      eauto.
    + left. done.
    + exists z, (Some m), st'. split; [exact Hrun|exact Hm].
Qed.

End plain_search.

(** X14: the plain search succeeds on searchable states.  With a known
    heuristic, on a well-formed state whose flags agree with the board, at
    a depth within the limit and with fuel beyond the remaining depth,
    [search] returns an integer score under any clock; the move it returns
    is one that [is_valid_move] accepts in that state, and it returns no
    move only from a leaf: depth limit reached, clock run out, or game
    finished. *)
Theorem search_returns_score_and_move (clock : nat → comparison)
    (self : Game.t) (o : Options.t) (fuel : nat) (state : Game.t)
    (cur maxDepth : Z) (maximizing : bool) (st : Minimax.Locals) :
  known_heuristic (Options.heuristic o) →
  searchable o state →
  0 <= maxDepth - (cur - Game.turns_played self) < Z.of_nat fuel →
  ∃ z mv st',
    Minimax.search clock self fuel state cur maxDepth maximizing st
      = Ok ((VInt z, mv), st')
    ∧ match mv with
      | Some m => legal_in state m
      | None => cur - Game.turns_played self = maxDepth
                ∨ clock (Minimax.reads st) = Gt
                ∨ Game.is_finished state = true
      end.
Proof. intros Hknown. by apply search_integer. Qed.

Lemma search_returns_score_and_move_witness :
  let o := Options.mk 5 (Some 4) (Some 2) CompVsComp false (Some 100) true None
                      (Some "e2"%string) in
  let g := Game.__post_init__ o in
  ∃ z mv st',
    Minimax.search in_time g 4 g 0 3 true (Minimax.mkLocals 0 1 0 0 ∅)
    = Ok ((VInt z, mv), st').
Proof.
  intros o g.
  assert (Hknown : known_heuristic (Options.heuristic o)) by (by right; right).
  assert (Hs : searchable o g).
  { split_and!.
    - apply board_wf_initial.
    - apply flags_consistent_initial. by vm_compute.
    - apply options_initial. }
  assert (Hfuel : 0 <= 3 - (0 - Game.turns_played g) < Z.of_nat 4).
  { replace (Game.turns_played g) with 0 by (by vm_compute). lia. }
  destruct (search_returns_score_and_move in_time g o 4 g 0 3 true
              (Minimax.mkLocals 0 1 0 0 ∅) Hknown Hs Hfuel)
    as (z & mv & st' & Hrun & _).
  by exists z, mv, st'.
Defined.

(** ** Iterative deepening *)

Section deepening.

Variable clock : nat → comparison.
Variable self : Game.t.
Variable o : Options.t.
Variable limit : Z.
Hypothesis known : known_heuristic (Options.heuristic o).
Hypothesis plain : Options.alpha_beta o = false.
Hypothesis depth : Options.max_depth o = Some limit.
Hypothesis root : searchable o self.

Lemma deepen_plain fuel max_depth score best st :
  1 <= max_depth →
  1 <= Z.of_nat fuel →
  (max_depth <= limit → 2 * limit - max_depth + 2 <= Z.of_nat fuel) →
  (score = None → clock (Minimax.reads st) = Lt ∧ max_depth <= limit) →
  (∀ s, score = Some s → ∃ z, s = VInt z) →
  (∀ m, best = Some m → legal_in self m) →
  ((∀ n, clock n = Lt) → Game.is_finished self = false →
   score ≠ None → best ≠ None) →
  ∃ z mv st',
    Minimax.deepen clock self fuel max_depth score best st = Ok ((VInt z, mv), st')
    ∧ (∀ m, mv = Some m → legal_in self m)
    ∧ ((∀ n, clock n = Lt) → Game.is_finished self = false → mv ≠ None).
Proof.
  revert max_depth score best st.
  induction fuel as [|fuel IH];
    intros max_depth score best st Hmin Hfuel1 Hfuel Hfirst Hscore Hbest Hmove; [lia|].
  destruct root as (_ & _ & Ho).
  assert (Hexit : ∀ st1, (score = None → False) →
            ∃ (z : Z) (mv : option CoordPair.t) (st' : Minimax.Locals),
              (match score with
               | Some score => Ok ((score, best), st1)
               | None => Raise UnboundLocalError
               end : res (Minimax.Scored * Minimax.Locals))
              = Ok ((VInt z, mv), st')
              ∧ (∀ m, mv = Some m → legal_in self m)
              ∧ ((∀ n, clock n = Lt) → Game.is_finished self = false → mv ≠ None)).
  { intros st1 Hsome. destruct score as [s|]; [|done].
    destruct (Hscore s eq_refl) as [z ->]. exists z, best, st1.
    split_and!; [done|done|]. intros Hc Hf. by apply Hmove. }
  cbn [Minimax.deepen]. unfold Minimax.read_clock.
  case_bool_decide as Hclock; cycle 1.
  { apply Hexit. intros Hnone. by destruct (Hfirst Hnone). }
  rewrite Ho, depth, plain. simpl negb. cbv iota.
  case_bool_decide as Hdepth; cycle 1.
  { apply Hexit. intros Hnone. by destruct (Hfirst Hnone). }
  destruct (search_integer clock self o known (S fuel) self (Game.turns_played self)
              max_depth (bool_decide (Game.next_player self = Attacker))
              (Minimax.mkLocals (S (Minimax.reads st)) 1 0 0
                 (Minimax.evaluations_per_depth st)) root)
    as (z & mv & st2 & Hrun & Hmv); [lia|].
  simpl in Hrun |- *. rewrite Hrun. simpl.
  apply IH; try lia.
  - done.
  - intros s [= <-]. by exists z.
  - intros m ->. exact Hmv.
  - intros Hc Hf _ ->. destruct Hmv as [?|[Hgt|?]]; [lia| |congruence].
    simpl in Hgt. rewrite Hc in Hgt. done.
Qed.

End deepening.

(** X15: how [get_best_move_minimax] fails before its first iteration.
    When the very first reading of the clock finds the time budget (less
    the safety margin) already used up, the loop body never runs and the
    final [return] raises UnboundLocalError, [score] never having been
    assigned; the same happens when the configured maximum depth is below
    1; and when the maximum depth is unset the loop test itself raises
    TypeError.  No move is returned in any of these cases. *)
Theorem get_best_move_minimax_no_iteration (clock : nat → comparison)
    (self : Game.t) (fuel : nat) (stats : gmap Z Z) :
  (clock 0%nat ≠ Lt →
   Minimax.get_best_move_minimax clock self (S fuel) stats = Raise UnboundLocalError)
  ∧ (clock 0%nat = Lt →
     Options.max_depth (Game.options self) = None →
     Minimax.get_best_move_minimax clock self (S fuel) stats = Raise TypeError)
  ∧ (∀ limit, clock 0%nat = Lt →
       Options.max_depth (Game.options self) = Some limit → limit < 1 →
       Minimax.get_best_move_minimax clock self (S fuel) stats
       = Raise UnboundLocalError).
Proof.
  unfold Minimax.get_best_move_minimax. cbn [Minimax.deepen]. simpl.
  split_and!.
  - intros Hc. by rewrite bool_decide_eq_false_2.
  - intros Hc Hd. by rewrite bool_decide_eq_true_2, Hd.
  - intros limit Hc Hd Hl.
    rewrite bool_decide_eq_true_2, Hd by done.
    by rewrite bool_decide_eq_false_2 by lia.
Qed.

Lemma get_best_move_minimax_no_iteration_witness :
  Minimax.get_best_move_minimax (λ _, Gt) (Game.__post_init__ Options.default)
    5 ∅ = Raise UnboundLocalError.
Proof.
  apply (proj1 (get_best_move_minimax_no_iteration (λ _, Gt)
                  (Game.__post_init__ Options.default) 4 ∅)).
  discriminate.
Defined.

(** X16: the best-move search with pruning switched off succeeds.  On a
    searchable state with a known heuristic and a maximum depth of at
    least 1, if the first reading of the clock is in time then, whatever
    the later readings, [get_best_move_minimax] returns an integer score,
    and the move it returns, if any, is accepted by [is_valid_move] in the
    state searched; if moreover the clock never runs out and the game is
    not finished, it does return a move. *)
Theorem get_best_move_minimax_plain (clock : nat → comparison) (self : Game.t)
    (o : Options.t) (limit : Z) (fuel : nat) (stats : gmap Z Z) :
  known_heuristic (Options.heuristic o) →
  Options.alpha_beta o = false →
  Options.max_depth o = Some limit →
  searchable o self →
  1 <= limit →
  clock 0%nat = Lt →
  2 * limit + 1 <= Z.of_nat fuel →
  ∃ z mv st,
    Minimax.get_best_move_minimax clock self fuel stats = Ok ((VInt z, mv), st)
    ∧ (∀ m, mv = Some m → legal_in self m)
    ∧ ((∀ n, clock n = Lt) → Game.is_finished self = false → mv ≠ None).
Proof.
  intros Hknown Hplain Hdepth Hroot Hlimit Hclock Hfuel.
  unfold Minimax.get_best_move_minimax.
  apply (deepen_plain clock self o limit Hknown Hplain Hdepth Hroot);
    try done; try lia.
Qed.

Lemma get_best_move_minimax_plain_witness :
  let o := Options.mk 5 (Some 2) (Some 2) CompVsComp false (Some 100) true None
                      (Some "e0"%string) in
  ∃ z mv st,
    Minimax.get_best_move_minimax in_time (Game.__post_init__ o) 5 ∅
    = Ok ((VInt z, mv), st)
    ∧ mv ≠ None.
Proof.
  intros o.
  assert (Hknown : known_heuristic (Options.heuristic o)) by (by left).
  assert (Hs : searchable o (Game.__post_init__ o)).
  { split_and!.
    - apply board_wf_initial.
    - apply flags_consistent_initial. by vm_compute.
    - apply options_initial. }
  assert (Hfuel : 2 * 2 + 1 <= Z.of_nat 5) by (by vm_compute).
  assert (Hlimit : 1 <= 2) by lia.
  destruct (get_best_move_minimax_plain in_time (Game.__post_init__ o) o 2 5 ∅
              Hknown eq_refl eq_refl Hs Hlimit eq_refl Hfuel)
    as (z & mv & st & Hrun & _ & Hmove).
  exists z, mv, st. split; [exact Hrun|].
  apply Hmove; [done|]. by vm_compute.
Defined.

(** ** The plain search computes the minimax value *)

Section minimax_value.

Variable self : Game.t.
Variable o : Options.t.
Hypothesis known : known_heuristic (Options.heuristic o).

Lemma static_value_score (g : Game.t) :
  Game.options g = o →
  of_score (Game.calculate_heuristic g) = VInt (static_value g).
Proof.
  intros Ho. unfold static_value.
  destruct (calculate_heuristic_known g) as [z ->]; [|done].
  rewrite Ho. exact known.
Qed.

Lemma search_loop_minimax (maximizing : bool) recurse cur
    (value_of : Game.t → Z) (Q : CoordPair.t → Z → Prop) children a best st :
  Forall (λ entry, ∃ child, entry.2 = Ok child
                            ∧ searchable o (Game.next_turn child)
                            ∧ Q entry.1 (value_of (Game.next_turn child)))
         children →
  (∀ child st, searchable o child →
               ∃ m st', recurse child st = Ok ((VInt (value_of child), m), st')) →
  (∀ m, best = Some m → Q m a) →
  ∃ mv st',
    (if maximizing then Minimax.search_max else Minimax.search_min)
      self recurse cur children (VInt a) best st
    = Ok ((VInt (foldl (if maximizing then Z.max else Z.min) a
                   ((λ s, value_of s.2)
                      <$> omap (λ entry, match entry.2 with
                                         | Ok child => Some (entry.1, Game.next_turn child)
                                         | _ => None
                                         end) children)),
           mv), st')
    ∧ (∀ m, mv = Some m →
            Q m (foldl (if maximizing then Z.max else Z.min) a
                   ((λ s, value_of s.2)
                      <$> omap (λ entry, match entry.2 with
                                         | Ok child => Some (entry.1, Game.next_turn child)
                                         | _ => None
                                         end) children)))
    ∧ (best ≠ None → mv ≠ None).
Proof.
  intros Hch Hrec. revert a best st.
  induction Hch as [|[mv rchild] children (child & Hc & Hs & Hq) Hch IH];
    intros a best st Hbest.
  { exists best, st. by destruct maximizing. }
  simpl in Hc. subst rchild. simpl in Hq.
  destruct (Hrec _ st Hs) as (m' & st1 & Hr).
  destruct maximizing; simpl; rewrite Hr; simpl.
  - case_bool_decide as Hlt.
    + destruct (IH (value_of (Game.next_turn child)) (Some mv)
                  (Minimax.count_child self cur st1))
        as (mv' & st' & Hrun & Hmv & Hsome).
      { by intros m [= <-]. }
      exists mv', st'. rewrite Z.max_r by lia.
      split_and!; [done|done|]. intros _. by apply Hsome.
    + destruct (IH a best (Minimax.count_child self cur st1) Hbest)
        as (mv' & st' & Hrun & Hmv & Hsome).
      exists mv', st'. rewrite Z.max_l by lia. done.
  - case_bool_decide as Hlt.
    + destruct (IH (value_of (Game.next_turn child)) (Some mv)
                  (Minimax.count_child self cur st1))
        as (mv' & st' & Hrun & Hmv & Hsome).
      { by intros m [= <-]. }
      exists mv', st'. rewrite Z.min_r by lia.
      split_and!; [done|done|]. intros _. by apply Hsome.
    + destruct (IH a best (Minimax.count_child self cur st1) Hbest)
        as (mv' & st' & Hrun & Hmv & Hsome).
      exists mv', st'. rewrite Z.min_l by lia. done.
Qed.

Lemma search_minimax fuel state cur maxDepth maximizing st :
  searchable o state →
  0 <= maxDepth - (cur - Game.turns_played self) < Z.of_nat fuel →
  let depth := Z.to_nat (maxDepth - (cur - Game.turns_played self)) in
  ∃ mv st',
    Minimax.search in_time self fuel state cur maxDepth maximizing st
    = Ok ((VInt (minimax depth state maximizing), mv), st')
    ∧ (∀ m, mv = Some m →
            ∃ s, (m, s) ∈ successors state
                 ∧ minimax (pred depth) s (negb maximizing)
                   = minimax depth state maximizing).
Proof.
  revert state cur maximizing st.
  induction fuel as [|fuel IH]; intros state cur maximizing st Hs Hfuel; [lia|].
  cbn zeta. cbn [Minimax.search].
  pose proof (static_value_score state (proj2 (proj2 Hs))) as Hstatic.
  case_bool_decide as Hdepth; simpl.
  { rewrite Hstatic. replace (maxDepth - (cur - Game.turns_played self)) with 0 by lia.
    simpl. eexists None, _. split; [done|]. by intros m [=]. }
  destruct (Z.to_nat (maxDepth - (cur - Game.turns_played self))) as [|depth] eqn:Hd;
    [lia|].
  cbn [minimax pred].
  destruct (Game.is_finished state) eqn:Hfin.
  { rewrite Hstatic. eexists None, _. split; [done|]. by intros m [=]. }
  pose proof (searchable_children o state Hs) as Hch.
  pose proof (unfinished_has_children o state Hs Hfin) as Hne.
  unfold successors.
  destruct (Game.get_child_states state) as [|[mv0 rchild0] children] eqn:Hlist;
    [done|].
  apply Forall_cons in Hch as [(child0 & Hc0 & Hs0 & Hl0) Hch].
  simpl in Hc0. subst rchild0.
  assert (Hrec : ∀ child st0, searchable o child →
            ∃ m st',
              Minimax.search in_time self fuel child (cur + 1) maxDepth
                (negb maximizing) st0
              = Ok ((VInt (minimax depth child (negb maximizing)), m), st')).
  { intros child st0 Hc.
    destruct (IH child (cur + 1) (negb maximizing) st0 Hc) as (m & st' & Hrun & _);
      [lia|].
    replace (Z.to_nat (maxDepth - (cur + 1 - Game.turns_played self)))
      with depth in Hrun by lia.
    eauto. }
  set (entry_state := λ entry : CoordPair.t * res Game.t,
         match entry.2 with
         | Ok child => Some (entry.1, Game.next_turn child)
         | _ => None
         end).
  set (all := (mv0, Game.next_turn child0) :: omap entry_state children).
  set (Q := λ (m : CoordPair.t) (v : Z),
         ∃ s, (m, s) ∈ all ∧ minimax depth s (negb maximizing) = v).
  assert (Hch' : Forall (λ entry, ∃ child, entry.2 = Ok child
                            ∧ searchable o (Game.next_turn child)
                            ∧ Q entry.1 (minimax depth (Game.next_turn child)
                                           (negb maximizing)))
                   children).
  { apply Forall_forall. intros [mv rchild] Hin.
    rewrite Forall_forall in Hch. destruct (Hch _ Hin) as (child & Hc & Hsc & _).
    simpl in Hc. subst rchild. exists child. split_and!; [done|done|].
    exists (Game.next_turn child). split; [|done]. right.
    apply list_elem_of_omap. by exists (mv, Ok child). }
  destruct (Hrec (Game.next_turn child0)
              (Minimax.mkLocals (S (Minimax.reads st)) (Minimax.nodes_explored st)
                 (Minimax.total_depth st) (Minimax.num_non_leaf_nodes st)
                 (Minimax.evaluations_per_depth st)) Hs0) as (m0 & st1 & Hr0).
  destruct (search_loop_minimax maximizing
              (λ child, Minimax.search in_time self fuel child (cur + 1) maxDepth
                          (negb maximizing))
              cur (λ s, minimax depth s (negb maximizing)) Q children
              (minimax depth (Game.next_turn child0) (negb maximizing)) (Some mv0)
              (Minimax.count_child self cur st1) Hch' Hrec)
    as (mv & st' & Hrun & Hmv & _).
  { intros m [= <-]. exists (Game.next_turn child0). split; [left|done]. }
  exists mv, st'. fold entry_state in Hrun, Hmv. split; [|exact Hmv].
  destruct maximizing; simpl in *; rewrite Hr0; simpl; exact Hrun.
Qed.

End minimax_value.

(** X17: when the clock never runs out, the plain search is minimax.  On
    a searchable state with a known heuristic, [search] returns as its
    score the textbook minimax value of the state at the remaining depth
    (static values at the leaves and in finished states, the maximum over
    the successors when maximising and the minimum otherwise), and the move
    it returns leads to a successor whose own minimax value is that
    score. *)
Theorem search_computes_minimax (self : Game.t) (o : Options.t) (fuel : nat)
    (state : Game.t) (cur maxDepth : Z) (maximizing : bool) (st : Minimax.Locals) :
  known_heuristic (Options.heuristic o) →
  searchable o state →
  0 <= maxDepth - (cur - Game.turns_played self) < Z.of_nat fuel →
  let depth := Z.to_nat (maxDepth - (cur - Game.turns_played self)) in
  ∃ mv st',
    Minimax.search in_time self fuel state cur maxDepth maximizing st
    = Ok ((VInt (minimax depth state maximizing), mv), st')
    ∧ (∀ m, mv = Some m →
            ∃ s, (m, s) ∈ successors state
                 ∧ minimax (pred depth) s (negb maximizing)
                   = minimax depth state maximizing).
Proof. intros Hknown. by apply search_minimax. Qed.

Lemma search_computes_minimax_witness :
  let o := Options.mk 5 (Some 4) (Some 2) CompVsComp false (Some 100) true None
                      (Some "e2"%string) in
  let g := Game.__post_init__ o in
  ∃ mv st',
    Minimax.search in_time g 3 g 0 2 true (Minimax.mkLocals 0 1 0 0 ∅)
    = Ok ((VInt (minimax 2 g true), mv), st').
Proof.
  intros o g.
  assert (Hknown : known_heuristic (Options.heuristic o)) by (by right; right).
  assert (Hs : searchable o g).
  { split_and!.
    - apply board_wf_initial.
    - apply flags_consistent_initial. by vm_compute.
    - apply options_initial. }
  assert (Hfuel : 0 <= 2 - (0 - Game.turns_played g) < Z.of_nat 3).
  { replace (Game.turns_played g) with 0 by (by vm_compute). lia. }
  destruct (search_computes_minimax g o 3 g 0 2 true
              (Minimax.mkLocals 0 1 0 0 ∅) Hknown Hs Hfuel)
    as (mv & st' & Hrun & _).
  exists mv, st'.
  replace (Z.to_nat (2 - (0 - Game.turns_played g))) with 2%nat in Hrun
    by (by vm_compute).
  exact Hrun.
Defined.

(** ** Combat has no first mover *)

Lemma store_commute b (r c r' c' : Z) x y :
  0 <= r → 0 <= c → 0 <= r' → 0 <= c' → r ≠ r' ∨ c ≠ c' →
  Game.store (Game.store b r c x) r' c' y = Game.store (Game.store b r' c' y) r c x.
Proof.
  intros Hr Hc Hr' Hc' Hne. unfold Game.store.
  destruct (decide (r = r')) as [->|Hrr].
  - rewrite !list_alter_alter_eq. apply list_alter_ext; [|done].
    intros line _. simpl. apply list_insert_insert_ne. lia.
  - apply list_alter_alter_ne. lia.
Qed.

Lemma board_set g c x :
  Game.is_valid_coord g c = true →
  Game.board (Game.set g c x) = Game.store (Game.board g) (Coord.row c) (Coord.col c) x.
Proof. intros Hc. unfold Game.set. by rewrite Hc. Qed.

Lemma mod_health_twice_commute g s d δs δd A B :
  Game.get g s = Some A → Game.get g d = Some B → s ≠ d →
  Game.mod_health (Game.mod_health g s δs) d δd
  = Game.mod_health (Game.mod_health g d δd) s δs.
Proof.
  intros HA HB Hne.
  assert (HB' : Game.get (Game.mod_health g s δs) d = Some B)
    by (by rewrite mod_health_get_ne).
  assert (HA' : Game.get (Game.mod_health g d δd) s = Some A)
    by (by rewrite mod_health_get_ne).
  pose proof (get_Some_valid _ _ _ HA) as Hs.
  pose proof (get_Some_valid _ _ _ HB) as Hd.
  rewrite (mod_health_eq _ _ _ _ HB'), (mod_health_eq _ _ _ _ HA'). cbn zeta.
  rewrite !board_set by (unfold Game.is_valid_coord; rewrite mod_health_options; by apply is_valid_coord_spec, is_valid_coord_spec).
  rewrite (mod_health_eq _ _ _ _ HA), (mod_health_eq _ _ _ _ HB). cbn zeta. simpl.
  rewrite !board_set by done.
  apply is_valid_coord_spec in Hs, Hd.
  f_equal.
  - apply store_commute; try lia.
    destruct s as [r1 c1], d as [r2 c2]; simpl in *.
    destruct (decide (r1 = r2)); [right|left]; congruence.
  - by destruct (_ && _ && _), (_ && _ && _).
  - by destruct (_ && _ && negb _), (_ && _ && negb _).
Qed.

(** X18: combat has no first mover.  For two units standing in different
    cells, a fight requested from the first cell against the second and a
    fight requested from the second against the first lead to the very
    same state: each unit takes the other's damage whoever started, and the
    order in which [perform_fight] applies the two losses does not
    matter. *)
Theorem perform_fight_symmetric (g : Game.t) (s d : Coord.t) (A B : Unit.t) :
  Game.get g s = Some A → Game.get g d = Some B → s ≠ d →
  ∃ g',
    Game.perform_fight g (CoordPair.mk s d) = Ok g'
    ∧ Game.perform_fight g (CoordPair.mk d s) = Ok g'
    ∧ perform_fight_dst_first g (CoordPair.mk s d) = Ok g'.
Proof.
  intros HA HB Hne. unfold Game.perform_fight, perform_fight_dst_first. simpl.
  rewrite HA, HB. eexists. split_and!; [done| |].
  - f_equal. by eapply mod_health_twice_commute.
  - f_equal. by eapply mod_health_twice_commute.
Qed.

Lemma perform_fight_symmetric_witness :
  let g := Game.mk [ [Some (Unit.mk Defender AI 9); Some (Unit.mk Attacker Virus 9)]
                   ; [None; Some (Unit.mk Attacker AI 9)] ]
             Attacker 0
             (Options.mk 2 (Some 4) (Some 2) AttackerVsDefender true (Some 100)
                         true None None)
             true true false in
  ∃ g',
    Game.perform_fight g (CoordPair.mk (Coord.mk 0 1) (Coord.mk 0 0)) = Ok g'
    ∧ Game.perform_fight g (CoordPair.mk (Coord.mk 0 0) (Coord.mk 0 1)) = Ok g'.
Proof.
  intros g.
  destruct (perform_fight_symmetric g (Coord.mk 0 1) (Coord.mk 0 0)
              (Unit.mk Attacker Virus 9) (Unit.mk Defender AI 9)
              eq_refl eq_refl) as (g' & H1 & H2 & _); [discriminate|].
  by exists g'.
Defined.

(** ** Spatial iterators *)

Lemma elem_of_iter_range (c d : Coord.t) (dist : Z) :
  d ∈ Coord.iter_range c dist
  ↔ Z.abs (Coord.row d - Coord.row c) <= dist
    ∧ Z.abs (Coord.col d - Coord.col c) <= dist.
Proof.
  unfold Coord.iter_range. rewrite list_elem_of_bind. split.
  - intros (r & Hd & Hr). apply list_elem_of_bind in Hd as (k & Hd & Hk).
    apply list_elem_of_singleton in Hd as ->. simpl.
    apply elem_of_range in Hr, Hk. lia.
  - intros [Hr Hc]. exists (Coord.row d). split.
    + apply list_elem_of_bind. exists (Coord.col d). split.
      * destruct d; simpl. by apply list_elem_of_singleton.
      * apply elem_of_range. lia.
    + apply elem_of_range. lia.
Qed.

Lemma length_bind_const {A B} (f : A → list B) (l : list A) (n : nat) :
  (∀ x, length (f x) = n) → length (l ≫= f) = (length l * n)%nat.
Proof.
  intros Hf. induction l as [|x l IH]; [done|].
  rewrite bind_cons, length_app, Hf, IH. simpl. lia.
Qed.

(** X19: the coordinate iterators are exact.  [iter_range] around a
    coordinate lists, without repetition, exactly the coordinates within
    the given distance in both axes, (2 dist + 1) squared of them (none for
    a negative distance); [iter_adjacent] lists the four coordinates one
    step away, which all belong to the range of distance 1 and never
    include the centre; [iter_rectangle] over [from_dim] lists exactly the
    coordinates that [is_valid_coord] accepts, each once. *)
Theorem coordinate_iterators_exact (c : Coord.t) :
  (∀ dist d, d ∈ Coord.iter_range c dist
             ↔ Z.abs (Coord.row d - Coord.row c) <= dist
               ∧ Z.abs (Coord.col d - Coord.col c) <= dist)
  ∧ (∀ dist, NoDup (Coord.iter_range c dist))
  ∧ (∀ dist, 0 <= dist →
             Z.of_nat (length (Coord.iter_range c dist)) = (2 * dist + 1) * (2 * dist + 1))
  ∧ (∀ dist, dist < 0 → Coord.iter_range c dist = [])
  ∧ (∀ d, d ∈ Coord.iter_adjacent c ↔ one_step_apart (CoordPair.mk c d))
  ∧ NoDup (Coord.iter_adjacent c)
  ∧ (c ∉ Coord.iter_adjacent c)
  ∧ (∀ d, d ∈ Coord.iter_adjacent c → d ∈ Coord.iter_range c 1)
  ∧ (∀ g d, d ∈ CoordPair.iter_rectangle
                  (CoordPair.from_dim (Options.dim (Game.options g)))
            ↔ Game.is_valid_coord g d = true)
  ∧ (∀ p, NoDup (CoordPair.iter_rectangle p)).
Proof.
  split_and!.
  - intros dist d. apply elem_of_iter_range.
  - apply NoDup_iter_range.
  - intros dist Hdist. unfold Coord.iter_range.
    rewrite (length_bind_const _ _ (Z.to_nat (2 * dist + 1))).
    + unfold range. rewrite length_seqZ. lia.
    + intros r. rewrite (length_bind_const _ _ 1%nat) by done.
      unfold range. rewrite length_seqZ. lia.
  - intros dist Hdist. unfold Coord.iter_range, range.
    replace (seqZ (Coord.row c - dist) _) with (@nil Z); [done|].
    symmetry. apply length_zero_iff_nil. rewrite length_seqZ. lia.
  - intros d. apply elem_of_iter_adjacent.
  - unfold Coord.iter_adjacent.
    repeat (apply NoDup_cons; split;
            [rewrite ?elem_of_cons, elem_of_nil; intros H;
             repeat (destruct H as [H|H]; [injection H; lia|]); done|]).
    apply NoDup_nil_2.
  - intros Hin. apply elem_of_iter_adjacent in Hin.
    unfold one_step_apart in Hin. simpl in Hin. lia.
  - intros d Hin. apply elem_of_iter_adjacent in Hin. apply elem_of_iter_range.
    unfold one_step_apart in Hin. simpl in Hin. lia.
  - intros g d. apply elem_of_board_rectangle.
  - apply NoDup_iter_rectangle.
Qed.

(** * The coordinate notation *)

Lemma elem_of_seqZ_In (k m n : Z) : m <= k < m + n → In k (seqZ m n).
Proof. intros H. apply list_elem_of_In, elem_of_seqZ. lia. Qed.

(** X20: the notation of a coordinate reads back.  For every coordinate
    with a row in 0..25 and a column in 0..15, [to_string] produces a
    string (a row letter followed by a hexadecimal digit) from which
    [from_string] recovers the coordinate, also when the string is put in
    lower case. *)
Theorem coord_notation_round_trip (c : Coord.t) :
  0 <= Coord.row c < 26 → 0 <= Coord.col c < 16 →
  ∃ s, Coord.to_string c = Some s
       ∧ String.length s = 2%nat
       ∧ Coord.from_string s = Some c
       ∧ Coord.from_string (py_lower s) = Some c.
Proof.
  intros Hr Hk.
  assert (Hall : forallb (λ r, forallb (λ k,
            match Coord.to_string (Coord.mk r k) with
            | Some s =>
                bool_decide (String.length s = 2%nat
                             ∧ Coord.from_string s = Some (Coord.mk r k)
                             ∧ Coord.from_string (py_lower s) = Some (Coord.mk r k))
            | None => false
            end) (seqZ 0 16)) (seqZ 0 26) = true) by (vm_compute; reflexivity).
  rewrite forallb_forall in Hall.
  assert (Hin1 : In (Coord.row c) (seqZ 0 26)) by (apply elem_of_seqZ_In; lia).
  assert (Hin2 : In (Coord.col c) (seqZ 0 16)) by (apply elem_of_seqZ_In; lia).
  specialize (Hall _ Hin1). rewrite forallb_forall in Hall.
  specialize (Hall _ Hin2).
  destruct c as [r k]; simpl in *.
  destruct (Coord.to_string (Coord.mk r k)) as [s|]; [|done].
  apply bool_decide_eq_true in Hall. by exists s.
Qed.

Lemma coord_notation_round_trip_witness :
  ∃ s, Coord.to_string (Coord.mk 3 10) = Some s
       ∧ Coord.from_string s = Some (Coord.mk 3 10).
Proof.
  destruct (coord_notation_round_trip (Coord.mk 3 10)) as (s & Hs & _ & Hback & _);
    [simpl; lia|simpl; lia|].
  by exists s.
Defined.

(** X21: the notation of a move reads back.  For every pair of coordinates
    with rows in 0..25 and columns in 0..15, [CoordPair.to_string] produces
    a string (source, a space, destination) from which
    [CoordPair.from_string] recovers the pair. *)
Theorem move_notation_round_trip (p : CoordPair.t) :
  0 <= Coord.row (CoordPair.src p) < 26 → 0 <= Coord.col (CoordPair.src p) < 16 →
  0 <= Coord.row (CoordPair.dst p) < 26 → 0 <= Coord.col (CoordPair.dst p) < 16 →
  ∃ s, CoordPair.to_string p = Some s ∧ CoordPair.from_string s = Some p.
Proof.
  intros Hr1 Hk1 Hr2 Hk2.
  assert (Hall : forallb (λ r1, forallb (λ k1, forallb (λ r2, forallb (λ k2,
            match CoordPair.to_string
                    (CoordPair.mk (Coord.mk r1 k1) (Coord.mk r2 k2)) with
            | Some s =>
                bool_decide (CoordPair.from_string s
                             = Some (CoordPair.mk (Coord.mk r1 k1) (Coord.mk r2 k2)))
            | None => false
            end) (seqZ 0 16)) (seqZ 0 26)) (seqZ 0 16)) (seqZ 0 26) = true)
    by (vm_compute; reflexivity).
  rewrite forallb_forall in Hall.
  assert (Hin1 : In (Coord.row (CoordPair.src p)) (seqZ 0 26))
    by (apply elem_of_seqZ_In; lia).
  assert (Hin2 : In (Coord.col (CoordPair.src p)) (seqZ 0 16))
    by (apply elem_of_seqZ_In; lia).
  assert (Hin3 : In (Coord.row (CoordPair.dst p)) (seqZ 0 26))
    by (apply elem_of_seqZ_In; lia).
  assert (Hin4 : In (Coord.col (CoordPair.dst p)) (seqZ 0 16))
    by (apply elem_of_seqZ_In; lia).
  specialize (Hall _ Hin1). rewrite forallb_forall in Hall.
  specialize (Hall _ Hin2). rewrite forallb_forall in Hall.
  specialize (Hall _ Hin3). rewrite forallb_forall in Hall.
  specialize (Hall _ Hin4).
  destruct p as [[r1 k1] [r2 k2]]; simpl in *.
  destruct (CoordPair.to_string _) as [s|]; [|done].
  apply bool_decide_eq_true in Hall. by exists s.
Qed.

Lemma move_notation_round_trip_witness :
  ∃ s, CoordPair.to_string (CoordPair.mk (Coord.mk 4 4) (Coord.mk 3 4)) = Some s
       ∧ CoordPair.from_string s
         = Some (CoordPair.mk (Coord.mk 4 4) (Coord.mk 3 4)).
Proof.
  apply (move_notation_round_trip (CoordPair.mk (Coord.mk 4 4) (Coord.mk 3 4)));
    simpl; lia.
Defined.
